(** * Smart Pack core of the staff taxi booking backend

    A shallow embedding of the zone clustering, bucket aggregation, route
    sequencing and output assembly of [routes/budget.js]
    (handler [GET /api/reports/shift-groups] and its helpers), followed by
    the properties of that code.

    Conventions of the embedding:
    - a JavaScript string is a [string]; its characters are read as the
      UTF-16 code units 0..255, on which [trim] and [toLowerCase] are
      modelled exactly;
    - a JavaScript number is a [number]: NaN, an infinity, or a finite
      double, given by the rational it denotes (comparison of finite doubles
      is comparison of their values);
    - the trigonometry of [haversineDistance] and the collation behind
      [String.prototype.localeCompare] are not computed here: both are
      section variables, and the code is modelled for every such function;
    - a [Map] is an association list in insertion order, a [Set] a
      duplicate-free list in insertion order;
    - a function that can throw returns an [outcome]. *)

From Stdlib Require Import List String Ascii Bool Arith NArith ZArith QArith Lia.
From Stdlib Require Import Qabs Permutation Sorted.
From Stdlib Require DecimalString DecimalNat.
Import ListNotations.

Local Close Scope Q_scope.
Local Open Scope string_scope.
Local Open Scope list_scope.
Local Open Scope nat_scope.

(* ------------------------------------------------------------------ *)
(** ** JavaScript values *)

(** The result of running a piece of code that may throw. [Diverged] is the
    exhaustion of the iteration budget given to a [while] loop. *)
Inductive outcome (A : Type) : Type :=
| Returned (a : A)
| Thrown
| Diverged.
Arguments Returned {A} a.
Arguments Thrown {A}.
Arguments Diverged {A}.

Definition bind {A B : Type} (o : outcome A) (k : A -> outcome B) : outcome B :=
  match o with
  | Returned a => k a
  | Thrown => Thrown
  | Diverged => Diverged
  end.

Notation "x <- c ;; k" := (bind c (fun x => k))
  (at level 61, c at next level, right associativity).

(** A JavaScript number. *)
Inductive number : Type :=
| NaN
| NegInfinity
| Finite (q : Q)
| Infinity.

(** [a < b] on numbers: false as soon as one side is NaN. *)
Definition num_ltb (a b : number) : bool :=
  match a, b with
  | NaN, _ | _, NaN => false
  | NegInfinity, NegInfinity => false
  | NegInfinity, _ => true
  | _, NegInfinity => false
  | Infinity, _ => false
  | Finite _, Infinity => true
  | Finite x, Finite y => negb (Qle_bool y x)
  end.

(** [a > b]. *)
Definition num_gtb (a b : number) : bool := num_ltb b a.

(** The value of a field such as [lat] or [lng]. *)
Inductive jsval : Type :=
| JUndefined
| JNull
| JNum (x : number)
| JStr (s : string).

(** [typeof v === "number"]. *)
Definition isNumber (v : jsval) : bool :=
  match v with
  | JNum _ => true
  | _ => false
  end.

(** [v === s] for a string literal [s]. *)
Definition strictEqStr (v : jsval) (s : string) : bool :=
  match v with
  | JStr t => String.eqb t s
  | _ => false
  end.

(** The value of a field the schema declares as a required string
    ([pickupDateISO], [onOffDutyTime]); a document written past the schema
    may lack it. *)
Inductive jstext : Type :=
| Undefined
| Null
| Text (s : string).

(** [`${v}`]. *)
Definition templateString (v : jstext) : string :=
  match v with
  | Undefined => "undefined"
  | Null => "null"
  | Text s => s
  end.

(** [a !== b] on such fields. *)
Definition jstext_neqb (a b : jstext) : bool :=
  match a, b with
  | Undefined, Undefined => false
  | Null, Null => false
  | Text s, Text t => negb (String.eqb s t)
  | _, _ => true
  end.

(* ------------------------------------------------------------------ *)
(** ** Strings *)

(** White space and line terminators removed by [String.prototype.trim],
    among the code units 0..255: TAB, LF, VT, FF, CR, SP and NBSP. *)
Definition isWhiteSpace (c : ascii) : bool :=
  let n := nat_of_ascii c in
  ((9 <=? n) && (n <=? 13)) || (n =? 32) || (n =? 160).

Fixpoint trimStart (s : string) : string :=
  match s with
  | EmptyString => EmptyString
  | String c r => if isWhiteSpace c then trimStart r else s
  end.

Fixpoint trimEnd (s : string) : string :=
  match s with
  | EmptyString => EmptyString
  | String c r =>
      match trimEnd r with
      | EmptyString => if isWhiteSpace c then EmptyString else String c EmptyString
      | r' => String c r'
      end
  end.

(** [s.trim()]. *)
Definition trim (s : string) : string := trimEnd (trimStart s).

(** Lower-case mapping of one code unit in 0..255: A-Z, and the Latin-1
    capitals U+00C0..U+00DE except the multiplication sign U+00D7. *)
Definition lowerChar (c : ascii) : ascii :=
  let n := nat_of_ascii c in
  if ((65 <=? n) && (n <=? 90))
     || ((192 <=? n) && (n <=? 222) && negb (n =? 215))
  then ascii_of_nat (n + 32)
  else c.

(** [s.toLowerCase()]. *)
Fixpoint toLowerCase (s : string) : string :=
  match s with
  | EmptyString => EmptyString
  | String c r => String (lowerChar c) (toLowerCase r)
  end.

(** [!s] for a string: only the empty string is falsy. *)
Definition isEmpty (s : string) : bool :=
  match s with
  | EmptyString => true
  | _ => false
  end.

Definition isDigit (c : ascii) : bool :=
  let n := nat_of_ascii c in (48 <=? n) && (n <=? 57).

(* ------------------------------------------------------------------ *)
(** ** Zone clusters *)

Record ZoneCluster : Type := mkCluster {
  label : string;
  zones : list string
}.

(** The module binds this literal as it stands; no code inspects the list
    before [getZoneClusterName] reads it. *)
Definition ZONE_CLUSTERS : list ZoneCluster :=
  [ {| label := "Mutley / Greenbank / Lipson / St Judes / Mount Gould";
       zones := [ "Mutley"; "Greenbank"; "St Judes, Lipson"; "St Judes";
                  "St Jude's"; "Lipson"; "Mount Gould"; "North Cross";
                  "North Hill" ] |} ].

(** The inner [for (const z of cluster.zones)]: does some alias equal
    [lower] once lower-cased? *)
Fixpoint matchesAlias (lower : string) (zs : list string) : bool :=
  match zs with
  | [] => false
  | z :: r => if String.eqb lower (toLowerCase z) then true else matchesAlias lower r
  end.

(** The outer [for (const cluster of ZONE_CLUSTERS)], returning at the
    first match. *)
Fixpoint firstCluster (lower : string) (clusters : list ZoneCluster) : option string :=
  match clusters with
  | [] => None
  | c :: r => if matchesAlias lower (zones c) then Some (label c) else firstCluster lower r
  end.

(** The body of [getZoneClusterName], with the module-level constant it
    reads made explicit. *)
Definition zoneClusterNameIn (clusters : list ZoneCluster) (zoneName : string) : string :=
  let name := trim zoneName in
  if isEmpty name then "(unknown)"
  else
    let lower := toLowerCase name in
    match firstCluster lower clusters with
    | Some l => l
    | None => name
    end.

Definition getZoneClusterName (zoneName : string) : string :=
  zoneClusterNameIn ZONE_CLUSTERS zoneName.

(* ------------------------------------------------------------------ *)
(** ** Route sequencing *)

(** Derriford Hospital, the Hub. *)
Definition DH_LAT : number := Finite (504195 # 10000).
Definition DH_LNG : number := Finite (- 4109 # 1000).

(** One entry of [addresses], as pushed by the [$group] stage, with the
    label added by the pickup-point step. *)
Record Address : Type := mkAddress {
  formatted : string;
  text : string;
  houseNumber : string;
  street : string;
  town : string;
  postCode : string;
  lat : jsval;
  lng : jsval;
  staffName : string;
  staffPhone : string;
  pickupPointLabel : option string
}.

(** The negation of the guard
    [typeof s.lat !== "number" || typeof s.lng !== "number"]. *)
Definition hasCoords (s : Address) : bool :=
  isNumber (lat s) && isNumber (lng s).

(** [arr.splice(i, 1)]: the removed elements and the array left. *)
Definition splice {A : Type} (i : nat) (l : list A) : list A * list A :=
  (firstn 1 (skipn i l), firstn i l ++ skipn (S i) l).

Section Sequencer.

(** [haversineDistance(lat1, lng1, lat2, lng2)]: floating-point
    trigonometry, kept abstract. It is applied to whatever the fields
    hold, also when they are not numbers. *)
Variable haversineDistance : jsval -> jsval -> jsval -> jsval -> number.

(** The [forEach] that looks for the stop furthest from the Hub; the
    state is [(startIdx, maxDist)] and [i] the index of the head of [l]. *)
Fixpoint furthestScan (l : list Address) (i : nat) (st : nat * number) : nat * number :=
  match l with
  | [] => st
  | s :: r =>
      let st' :=
        if negb (hasCoords s) then st
        else
          let d := haversineDistance (lat s) (lng s) (JNum DH_LAT) (JNum DH_LNG) in
          if num_gtb d (snd st) then (i, d) else st
      in furthestScan r (S i) st'
  end.

(** The [forEach] that looks for the stop nearest to the position
    [(clat, clng)]; the state is [(bestIdx, bestDist)]. *)
Fixpoint nearestScan (clat clng : jsval) (l : list Address) (i : nat)
    (st : nat * number) : nat * number :=
  match l with
  | [] => st
  | s :: r =>
      let st' :=
        if negb (hasCoords s) then st
        else
          let d := haversineDistance clat clng (lat s) (lng s) in
          if num_ltb d (snd st) then (i, d) else st
      in nearestScan clat clng r (S i) st'
  end.

Definition startIdx (remaining : list Address) : nat :=
  fst (furthestScan remaining 0 (0, Finite (- 1))).

Definition bestIdx (clat clng : jsval) (remaining : list Address) : nat :=
  fst (nearestScan clat clng remaining 0 (0, Infinity)).

(** [while (remaining.length) { ... }], shared by both directions: the
    inbound loop reads the position off [current], the outbound loop off
    [currentPos], which holds the same two fields of the last stop. Reading
    a field of [undefined] throws. *)
Fixpoint nearestWalk (budget : nat) (clat clng : jsval)
    (remaining ordered : list Address) : outcome (list Address) :=
  match remaining with
  | [] => Returned ordered
  | _ :: _ =>
      match budget with
      | 0 => Diverged
      | S budget' =>
          let (removed, rest) := splice (bestIdx clat clng remaining) remaining in
          match removed with
          | [] => Thrown
          | next :: _ =>
              nearestWalk budget' (lat next) (lng next) rest (ordered ++ [next])
          end
      end
  end.

(** [optimiseRoute(stops, direction = "inbound")] on an array [stops]. *)
Definition optimiseRoute (stops : list Address) (direction : jsval) : outcome (list Address) :=
  let direction := match direction with JUndefined => JStr "inbound" | d => d end in
  if List.length stops <=? 1 then Returned stops
  else
    let remaining := stops in
    let ordered := [] in
    if strictEqStr direction "inbound" then
      let (removed, remaining) := splice (startIdx remaining) remaining in
      match removed with
      | [] => Thrown
      | current :: _ =>
          nearestWalk (List.length remaining) (lat current) (lng current)
            remaining (ordered ++ [current])
      end
    else
      nearestWalk (List.length remaining) (JNum DH_LAT) (JNum DH_LNG) remaining ordered.

End Sequencer.

(** The two scans are one loop, up to the distance asked for and the
    comparison by which a stop replaces the best one so far. *)
Fixpoint scanWith (dist : Address -> number) (beats : number -> number -> bool)
    (l : list Address) (i : nat) (st : nat * number) : nat * number :=
  match l with
  | [] => st
  | s :: r =>
      let st' :=
        if negb (hasCoords s) then st
        else if beats (dist s) (snd st) then (i, dist s) else st
      in scanWith dist beats r (S i) st'
  end.

(* ------------------------------------------------------------------ *)
(** ** Bucket aggregation *)

(** One element of [withPickupPointsByZone]: a [(date, time, zone)] group
    of the aggregation pipeline, its addresses already labelled. The
    [$ifNull] of the pipeline makes [zoneName] a string. *)
Module Group.
Record t : Type := mk {
  pickupDateISO : jstext;
  onOffDutyTime : jstext;
  zoneName : string;
  count : N;
  addresses : list Address
}.
End Group.

Module Bucket.
Record t : Type := mk {
  pickupDateISO : jstext;
  onOffDutyTime : jstext;
  clusterName : string;
  zones : list string;
  count : N;
  addresses : list Address
}.
End Bucket.

(** [set.add(x)]. *)
Definition setAdd (x : string) (s : list string) : list string :=
  if existsb (String.eqb x) s then s else s ++ [x].

(** [map.has(k)]. *)
Definition mapHas {V : Type} (k : string) (m : list (string * V)) : bool :=
  existsb (fun e => String.eqb (fst e) k) m.

(** [map.get(k)]. *)
Fixpoint mapGet {V : Type} (k : string) (m : list (string * V)) : option V :=
  match m with
  | [] => None
  | (k', v) :: r => if String.eqb k' k then Some v else mapGet k r
  end.

(** [map.set(k, v)]: a present key keeps its place, a new key goes last.
    Writing to the fields of the object returned by [map.get(k)] is a
    [mapSet] of the updated object at the same key. *)
Fixpoint mapSet {V : Type} (k : string) (v : V) (m : list (string * V)) : list (string * V) :=
  match m with
  | [] => [(k, v)]
  | (k', v') :: r => if String.eqb k' k then (k', v) :: r else (k', v') :: mapSet k v r
  end.

(** [g.zoneName || "(unknown)"]. *)
Definition originalZoneOf (g : Group.t) : string :=
  if isEmpty (Group.zoneName g) then "(unknown)" else Group.zoneName g.

(** [`${isoDate}__${time}__${clusterName}`]. *)
Definition bucketKeyOf (isoDate time : jstext) (clusterName : string) : string :=
  templateString isoDate ++ "__" ++ templateString time ++ "__" ++ clusterName.

Definition bucketKey (g : Group.t) : string :=
  bucketKeyOf (Group.pickupDateISO g) (Group.onOffDutyTime g)
    (getZoneClusterName (originalZoneOf g)).

(** One turn of [for (const g of withPickupPointsByZone)]. *)
Definition bucketStep (bucketMap : list (string * Bucket.t)) (g : Group.t)
  : outcome (list (string * Bucket.t)) :=
  let isoDate := Group.pickupDateISO g in
  let time := Group.onOffDutyTime g in
  let originalZone := originalZoneOf g in
  let clusterName := getZoneClusterName originalZone in
  let bucketKey := bucketKeyOf isoDate time clusterName in
  let bucketMap :=
    if negb (mapHas bucketKey bucketMap) then
      mapSet bucketKey
        {| Bucket.pickupDateISO := isoDate;
           Bucket.onOffDutyTime := time;
           Bucket.clusterName := clusterName;
           Bucket.zones := [];
           Bucket.count := 0%N;
           Bucket.addresses := [] |} bucketMap
    else bucketMap in
  match mapGet bucketKey bucketMap with
  | None => Thrown
  | Some bucket =>
      Returned
        (mapSet bucketKey
           {| Bucket.pickupDateISO := Bucket.pickupDateISO bucket;
              Bucket.onOffDutyTime := Bucket.onOffDutyTime bucket;
              Bucket.clusterName := Bucket.clusterName bucket;
              Bucket.zones := setAdd originalZone (Bucket.zones bucket);
              Bucket.count := (Bucket.count bucket + Group.count g)%N;
              Bucket.addresses := Bucket.addresses bucket ++ Group.addresses g |}
           bucketMap)
  end.

(** The bucket a turn creates, and the writes it makes to the bucket it
    fetched. *)
Definition newBucket (g : Group.t) : Bucket.t :=
  {| Bucket.pickupDateISO := Group.pickupDateISO g;
     Bucket.onOffDutyTime := Group.onOffDutyTime g;
     Bucket.clusterName := getZoneClusterName (originalZoneOf g);
     Bucket.zones := [];
     Bucket.count := 0%N;
     Bucket.addresses := [] |}.

Definition addGroup (bucket : Bucket.t) (g : Group.t) : Bucket.t :=
  {| Bucket.pickupDateISO := Bucket.pickupDateISO bucket;
     Bucket.onOffDutyTime := Bucket.onOffDutyTime bucket;
     Bucket.clusterName := Bucket.clusterName bucket;
     Bucket.zones := setAdd (originalZoneOf g) (Bucket.zones bucket);
     Bucket.count := (Bucket.count bucket + Group.count g)%N;
     Bucket.addresses := Bucket.addresses bucket ++ Group.addresses g |}.

(** The bucket a turn fetches: the one already under the key, or the new
    one. *)
Definition bucketFor (bucketMap : list (string * Bucket.t)) (g : Group.t) : Bucket.t :=
  match mapGet (bucketKey g) bucketMap with
  | Some bucket => bucket
  | None => newBucket g
  end.

(** The loop as a fold of the writes of each turn. *)
Definition bucketFold (m : list (string * Bucket.t)) (groups : list Group.t)
  : list (string * Bucket.t) :=
  fold_left (fun m g => mapSet (bucketKey g) (addGroup (bucketFor m g) g) m) groups m.

(** The whole loop, from a map in a given state. *)
Fixpoint bucketLoop (bucketMap : list (string * Bucket.t)) (groups : list Group.t)
  : outcome (list (string * Bucket.t)) :=
  match groups with
  | [] => Returned bucketMap
  | g :: r => m <- bucketStep bucketMap g ;; bucketLoop m r
  end.

(** [Array.from(bucketMap.values())] after the loop over [groups]. *)
Definition aggregate (groups : list Group.t) : outcome (list Bucket.t) :=
  m <- bucketLoop [] groups ;; Returned (map snd m).

(* ------------------------------------------------------------------ *)
(** ** Output assembly *)

Module RouteGroup.
Record t : Type := mk {
  pickupDateISO : string;
  onOffDutyTime : jstext;
  zoneName : string;
  zones : list string;
  count : N;
  addresses : list Address
}.
End RouteGroup.

(** [toDDMMYY(iso)]: a string of the shape [dddd-dd-dd] is rewritten as
    day-month-two digit year, anything else is returned as it is
    ([iso || ""]). *)
Definition toDDMMYY (iso : jstext) : string :=
  match iso with
  | Undefined | Null => EmptyString
  | Text s =>
      match s with
      | String y1 (String y2 (String y3 (String y4 (String h1
          (String m1 (String m2 (String h2 (String d1 (String d2 EmptyString))))))))) =>
          if forallb isDigit [y1; y2; y3; y4; m1; m2; d1; d2]
             && Ascii.eqb h1 "-" && Ascii.eqb h2 "-"
          then String d1 (String d2 (String "-" (String m1 (String m2
                 (String "-" (String y3 (String y4 EmptyString)))))))
          else s
      | _ => s
      end
  end.

(** [arr.sort()] on strings: ascending code units. *)
Fixpoint insertDefault (x : string) (sorted : list string) : list string :=
  match sorted with
  | [] => [x]
  | e :: r => if String.ltb x e then x :: e :: r else e :: insertDefault x r
  end.

Definition sortDefault (l : list string) : list string :=
  fold_left (fun acc x => insertDefault x acc) l [].

(** [arr.sort(cmp)]. The language requires a stable sort; this one inserts
    each element, from left to right, behind the elements it does not
    precede, asking [cmp(pivot, element)] as the engine's insertion sort
    does. For a comparator that is a consistent order every stable sort
    returns the same array. *)
Fixpoint insertSorted {A : Type} (cmp : A -> A -> outcome comparison)
    (pivot : A) (sorted : list A) : outcome (list A) :=
  match sorted with
  | [] => Returned [pivot]
  | e :: r =>
      c <- cmp pivot e ;;
      match c with
      | Lt => Returned (pivot :: e :: r)
      | _ => r' <- insertSorted cmp pivot r ;; Returned (e :: r')
      end
  end.

Definition sortBy {A : Type} (cmp : A -> A -> outcome comparison) (l : list A)
  : outcome (list A) :=
  fold_left (fun acc x => sorted <- acc ;; insertSorted cmp x sorted) l (Returned []).

(** [arr.map(f)] for an [f] that may throw. *)
Fixpoint mapM {A B : Type} (f : A -> outcome B) (l : list A) : outcome (list B) :=
  match l with
  | [] => Returned []
  | a :: r => b <- f a ;; bs <- mapM f r ;; Returned (b :: bs)
  end.

Section Assembly.

Variable haversineDistance : jsval -> jsval -> jsval -> jsval -> number.

(** [a.localeCompare(b)], by its sign. *)
Variable localeCompare : string -> string -> comparison.

(** The callback of [Array.from(bucketMap.values()).map(...)]. *)
Definition formatBucket (direction : jsval) (b : Bucket.t) : outcome RouteGroup.t :=
  orderedAddresses <- optimiseRoute haversineDistance (Bucket.addresses b) direction ;;
  Returned
    {| RouteGroup.pickupDateISO := toDDMMYY (Bucket.pickupDateISO b);
       RouteGroup.onOffDutyTime := Bucket.onOffDutyTime b;
       RouteGroup.zoneName := Bucket.clusterName b;
       RouteGroup.zones := sortDefault (Bucket.zones b);
       RouteGroup.count := Bucket.count b;
       RouteGroup.addresses := orderedAddresses |}.

(** The comparator of [formatted.sort]. Calling [localeCompare] on a
    missing time throws; a missing argument is compared as its string. *)
Definition compareGroups (a b : RouteGroup.t) : outcome comparison :=
  if negb (String.eqb (RouteGroup.pickupDateISO a) (RouteGroup.pickupDateISO b)) then
    Returned (localeCompare (RouteGroup.pickupDateISO a) (RouteGroup.pickupDateISO b))
  else if jstext_neqb (RouteGroup.onOffDutyTime a) (RouteGroup.onOffDutyTime b) then
    match RouteGroup.onOffDutyTime a with
    | Text s => Returned (localeCompare s (templateString (RouteGroup.onOffDutyTime b)))
    | _ => Thrown
    end
  else Returned (localeCompare (RouteGroup.zoneName a) (RouteGroup.zoneName b)).

(** The handler from the bucket loop on: [groups] is
    [withPickupPointsByZone], [type] the lower-cased query parameter; the
    result is the [groups] field of the response. *)
Definition shiftGroups (type : string) (groups : list Group.t) : outcome (list RouteGroup.t) :=
  let direction := if String.eqb type "finish" then JStr "outbound" else JStr "inbound" in
  buckets <- aggregate groups ;;
  formatted <- mapM (formatBucket direction) buckets ;;
  sortBy compareGroups formatted.

End Assembly.

(* ------------------------------------------------------------------ *)
(** ** The sequencing rule, as the specification words it *)

Section SequencerRule.

Variable haversineDistance : jsval -> jsval -> jsval -> jsval -> number.

(** Distance of a stop from the Hub, as the seeding step asks for it. *)
Definition hubDistance (s : Address) : number :=
  haversineDistance (lat s) (lng s) (JNum DH_LAT) (JNum DH_LNG).

(** Distance of a stop from the position [(clat, clng)]. *)
Definition distanceFrom (clat clng : jsval) (s : Address) : number :=
  haversineDistance clat clng (lat s) (lng s).

(** [x], at index [i] of [l], has the least [key]; among equals the first
    encountered wins. *)
Definition firstMinAt (key : Address -> number) (l : list Address) (i : nat)
    (x : Address) : Prop :=
  nth_error l i = Some x /\
  (forall j y, nth_error l j = Some y -> num_ltb (key y) (key x) = false) /\
  (forall j y, j < i -> nth_error l j = Some y -> num_ltb (key x) (key y) = true).

(** [x], at index [i] of [l], has the greatest [key]; among equals the
    first encountered wins. *)
Definition firstMaxAt (key : Address -> number) (l : list Address) (i : nat)
    (x : Address) : Prop :=
  nth_error l i = Some x /\
  (forall j y, nth_error l j = Some y -> num_gtb (key y) (key x) = false) /\
  (forall j y, j < i -> nth_error l j = Some y -> num_gtb (key x) (key y) = true).

(** [out] lists [remaining] by repeatedly appending the remaining stop
    nearest to the previously appended one, starting from the position
    [(clat, clng)]. *)
Inductive nearestChain : jsval -> jsval -> list Address -> list Address -> Prop :=
| chain_done : forall clat clng, nearestChain clat clng [] []
| chain_next : forall clat clng remaining i x out,
    firstMinAt (distanceFrom clat clng) remaining i x ->
    nearestChain (lat x) (lng x) (firstn i remaining ++ skipn (S i) remaining) out ->
    nearestChain clat clng remaining (x :: out).


(** Inbound: the stop furthest from the Hub first, then the walk from it. *)
Definition inboundRoute (stops out : list Address) : Prop :=
  match stops with
  | [] => out = []
  | _ :: _ =>
      exists i x rest,
        out = x :: rest /\
        firstMaxAt hubDistance stops i x /\
        nearestChain (lat x) (lng x) (firstn i stops ++ skipn (S i) stops) rest
  end.

(** Every distance taken between the Hub and the stops, or between two
    stops, is a finite non-negative number. *)
Definition positionsOf (stops : list Address) : list (jsval * jsval) :=
  (JNum DH_LAT, JNum DH_LNG) :: map (fun s => (lat s, lng s)) stops.

Definition properDistance (d : number) : Prop :=
  exists q : Q, d = Finite q /\ (0 <= q)%Q.

Definition properDistances (stops : list Address) : Prop :=
  forall p q, In p (positionsOf stops) -> In q (positionsOf stops) ->
    properDistance (haversineDistance (fst p) (snd p) (fst q) (snd q)).

End SequencerRule.

(* ------------------------------------------------------------------ *)
(** ** The aggregation rule, as the specification words it *)

(** The grouping key of the specification. *)
Definition groupTriple (g : Group.t) : jstext * jstext * string :=
  (Group.pickupDateISO g, Group.onOffDutyTime g, getZoneClusterName (Group.zoneName g)).

Definition bucketTriple (b : Bucket.t) : jstext * jstext * string :=
  (Bucket.pickupDateISO b, Bucket.onOffDutyTime b, Bucket.clusterName b).

(** A date or time that is present and written without underscore, as
    [YYYY-MM-DD] and [HH:mm] are. *)
Fixpoint noUnderscore (s : string) : bool :=
  match s with
  | EmptyString => true
  | String c r => negb (Ascii.eqb c "_") && noUnderscore r
  end.

Definition plainText (v : jstext) : bool :=
  match v with
  | Text s => noUnderscore s
  | _ => false
  end.

Definition plainKeyed (g : Group.t) : bool :=
  plainText (Group.pickupDateISO g) && plainText (Group.onOffDutyTime g).

(** The key string a bucket would get from its own fields. *)
Definition keyOfBucket (b : Bucket.t) : string :=
  bucketKeyOf (Bucket.pickupDateISO b) (Bucket.onOffDutyTime b) (Bucket.clusterName b).

(** Invariants of the entries of the bucket map. *)
Definition wellKeyed (e : string * Bucket.t) : Prop :=
  fst e = keyOfBucket (snd e).

Definition plainEntry (e : string * Bucket.t) : Prop :=
  plainText (Bucket.pickupDateISO (snd e)) = true /\
  plainText (Bucket.onOffDutyTime (snd e)) = true.

(** The map holds the group [g]: the bucket under the key of [g] has its
    addresses and its zone. *)
Definition holdsGroup (m : list (string * Bucket.t)) (g : Group.t) : Prop :=
  exists b, mapGet (bucketKey g) m = Some b /\
            incl (Group.addresses g) (Bucket.addresses b) /\
            In (originalZoneOf g) (Bucket.zones b).

(** A date or time is missing. *)
Definition isMissing (v : jstext) : bool :=
  match v with
  | Text _ => false
  | _ => true
  end.

(* ------------------------------------------------------------------ *)
(** ** Data for the examples *)

(** A distance to compute the examples with: the taxicab distance in
    degrees on finite coordinates, NaN on anything else. *)
Definition taxicabDistance (lat1 lng1 lat2 lng2 : jsval) : number :=
  match lat1, lng1, lat2, lng2 with
  | JNum (Finite a), JNum (Finite b), JNum (Finite c), JNum (Finite d) =>
      Finite (Qabs (c - a) + Qabs (d - b))%Q
  | _, _, _, _ => NaN
  end.

Definition stopAt (name : string) (la lo : jsval) : Address :=
  {| formatted := name; text := name; houseNumber := EmptyString;
     street := EmptyString; town := "Plymouth"; postCode := EmptyString;
     lat := la; lng := lo;
     staffName := EmptyString; staffPhone := EmptyString;
     pickupPointLabel := None |}.

Definition stopA : Address := stopAt "A" (JNum (Finite (5040 # 100))) (JNum (Finite (- 415 # 100))).
Definition stopB : Address := stopAt "B" (JNum (Finite (5038 # 100))) (JNum (Finite (- 420 # 100))).
Definition stopC : Address := stopAt "C" (JNum (Finite (5041 # 100))) (JNum (Finite (- 411 # 100))).

(** Two stops that were never geocoded. *)
Definition stopX : Address := stopAt "X" JUndefined JUndefined.
Definition stopY : Address := stopAt "Y" JNull JNull.


Definition groupOf (date time : jstext) (zone : string) (stops : list Address) : Group.t :=
  {| Group.pickupDateISO := date; Group.onOffDutyTime := time;
     Group.zoneName := zone; Group.count := N.of_nat (List.length stops);
     Group.addresses := stops |}.

(** A cluster list in which two clusters claim the alias Lipson. *)
Definition ambiguousClusters : list ZoneCluster :=
  [ {| label := "East"; zones := ["Lipson"; "Mount Gould"] |};
    {| label := "Centre"; zones := ["Mutley"; "Lipson"] |} ].

(* ------------------------------------------------------------------ *)
(** ** Reading the results *)

(** [f] applied to what a computation returns. *)
Definition outcomeMap {A B : Type} (f : A -> B) (o : outcome A) : outcome B :=
  match o with
  | Returned a => Returned (f a)
  | Thrown => Thrown
  | Diverged => Diverged
  end.

(** The stops that were geocoded, and those that were not. *)
Definition geocoded (stops : list Address) : list Address :=
  filter hasCoords stops.

Definition ungeocoded (stops : list Address) : list Address :=
  filter (fun s => negb (hasCoords s)) stops.

(** A relabelling for the examples: the address with its pickup-point
    label set to [l], every other field kept. *)
Definition withPickupPoint (l : string) (s : Address) : Address :=
  {| formatted := formatted s; text := text s; houseNumber := houseNumber s;
     street := street s; town := town s; postCode := postCode s;
     lat := lat s; lng := lng s;
     staffName := staffName s; staffPhone := staffPhone s;
     pickupPointLabel := Some l |}.

(** The groups of the input that have the key string [k], in input order. *)
Definition groupsUnder (k : string) (groups : list Group.t) : list Group.t :=
  filter (fun g => String.eqb (bucketKey g) k) groups.

Definition sumCounts (groups : list Group.t) : N :=
  fold_right (fun g n => (Group.count g + n)%N) 0%N groups.

Definition totalCount (buckets : list Bucket.t) : N :=
  fold_right (fun b n => (Bucket.count b + n)%N) 0%N buckets.

(** In the response, [b] may follow [a]: the comparator of the sort does
    not put [b] before [a]. *)
Definition mayFollow (localeCompare : string -> string -> comparison)
    (a b : RouteGroup.t) : Prop :=
  compareGroups localeCompare b a <> Returned Lt.

(** The route group has its time. *)
Definition timed (r : RouteGroup.t) : Prop :=
  isMissing (RouteGroup.onOffDutyTime r) = false.

(** [directionOf type] is the direction the handler derives from the
    query parameter. *)
Definition directionOf (type : string) : jsval :=
  if String.eqb type "finish" then JStr "outbound" else JStr "inbound".

(* ------------------------------------------------------------------ *)
(** ** Text helpers: phone numbers, references, cells of the bulk import *)

(** [/^\d{4}-\d{2}-\d{2}$/.test(s)]. *)
Definition isISODate (s : string) : bool :=
  match s with
  | String y1 (String y2 (String y3 (String y4 (String h1
      (String m1 (String m2 (String h2 (String d1 (String d2 EmptyString))))))))) =>
      forallb isDigit [y1; y2; y3; y4; m1; m2; d1; d2]
      && Ascii.eqb h1 "-" && Ascii.eqb h2 "-"
  | _ => false
  end.

(** [String(n)] for a natural number [n] (below 10^21, where JavaScript
    still prints all the digits). *)
Definition decimalOf (n : nat) : string :=
  DecimalString.NilEmpty.string_of_uint (Nat.to_uint n).

(** [Number(s)] for a string [s] of decimal digits. *)
Definition valueOfDigits (s : string) : nat :=
  match DecimalString.NilEmpty.uint_of_string s with
  | Some d => Nat.of_uint d
  | None => 0
  end.

Fixpoint zeros (n : nat) : string :=
  match n with
  | 0 => EmptyString
  | S k => String "0" (zeros k)
  end.

(** [s.padStart(len, "0")]. *)
Definition padStart0 (len : nat) (s : string) : string :=
  zeros (len - String.length s) ++ s.

(** The longest prefix of digits, and what follows it. *)
Fixpoint spanDigits (s : string) : string * string :=
  match s with
  | EmptyString => (EmptyString, EmptyString)
  | String c r =>
      if isDigit c then let (d, rest) := spanDigits r in (String c d, rest)
      else (EmptyString, s)
  end.

Definition lengthWithin (lo hi : nat) (s : string) : bool :=
  (lo <=? String.length s) && (String.length s <=? hi).

Fixpoint allDigits (s : string) : bool :=
  match s with
  | EmptyString => true
  | String c r => isDigit c && allDigits r
  end.

(** [s.replace(/[...]/g, "")] for a class of single characters: also
    [/\s+/g], whose runs are made of such characters. *)
Fixpoint removeChars (drop : ascii -> bool) (s : string) : string :=
  match s with
  | EmptyString => EmptyString
  | String c r => if drop c then removeChars drop r else String c (removeChars drop r)
  end.

(** The class [[()\-]]. *)
Definition isBracketOrHyphen (c : ascii) : bool :=
  Ascii.eqb c "(" || Ascii.eqb c ")" || Ascii.eqb c "-".

(** [/^<prefix>\d{n}$/.test(p)]. *)
Fixpoint afterPrefix (prefix p : string) : option string :=
  match prefix with
  | EmptyString => Some p
  | String c r =>
      match p with
      | String d q => if Ascii.eqb c d then afterPrefix r q else None
      | EmptyString => None
      end
  end.

Definition prefixThenDigits (prefix : string) (n : nat) (p : string) : bool :=
  match afterPrefix prefix p with
  | Some rest => (String.length rest =? n) && allDigits rest
  | None => false
  end.

(** [p.slice(n)]. *)
Fixpoint slice (n : nat) (p : string) : string :=
  match n, p with
  | 0, _ => p
  | S k, String _ r => slice k r
  | S _, EmptyString => EmptyString
  end.

(** [normalizeUKMobile(input)] on a string. *)
Definition normalizeUKMobile (input : string) : string :=
  if isEmpty input then input
  else
    let p := removeChars isBracketOrHyphen (removeChars isWhiteSpace input) in
    if prefixThenDigits "07" 9 p then "+44" ++ slice 1 p
    else if prefixThenDigits "7" 9 p then "+44" ++ p
    else if prefixThenDigits "00447" 9 p then "+" ++ slice 2 p
    else p.

(** The value of [p] in [normalizeUKMobile]: the input without white
    space, brackets and hyphens. *)
Definition strippedPhone (input : string) : string :=
  removeChars isBracketOrHyphen (removeChars isWhiteSpace input).

(** [nextShortRef()]: the counter document, absent before the first call
    (the update is an upsert), is incremented and the new value printed. *)
Definition nextShortRef (counter : option nat) : string * option nat :=
  let seq := match counter with Some n => n + 1 | None => 1 end in
  (("NAC" ++ padStart0 3 (decimalOf seq))%string, Some seq).

(** [s.match(/^(\d{1,2})(?::(\d{1,2}))?$/)]: the hour digits and, when
    there is a colon, the minute digits. The digit groups are greedy and
    what follows a group is no digit, so there is one way to match. *)
Definition matchTime (s : string) : option (string * option string) :=
  let (h, rest) := spanDigits s in
  if lengthWithin 1 2 h then
    match rest with
    | EmptyString => Some (h, None)
    | String c r =>
        if Ascii.eqb c ":" then
          let (m, rest') := spanDigits r in
          if lengthWithin 1 2 m && isEmpty rest' then Some (h, Some m) else None
        else None
    end
  else None.

(** [raw.match(/^(\d{1,2})[\/\-](\d{1,2})[\/\-](\d{2,4})$/)]: day, month
    and year digits. *)
Definition isDateSeparator (c : ascii) : bool :=
  Ascii.eqb c "/" || Ascii.eqb c "-".

Definition matchDMY (raw : string) : option (string * string * string) :=
  let (d, r1) := spanDigits raw in
  if lengthWithin 1 2 d then
    match r1 with
    | String c1 r2 =>
        if isDateSeparator c1 then
          let (mo, r3) := spanDigits r2 in
          if lengthWithin 1 2 mo then
            match r3 with
            | String c2 r4 =>
                if isDateSeparator c2 then
                  let (y, r5) := spanDigits r4 in
                  if lengthWithin 2 4 y && isEmpty r5 then Some (d, mo, y) else None
                else None
            | EmptyString => None
            end
          else None
        else None
    | EmptyString => None
    end
  else None.

(** The text [HH:MM] of an hour and a minute. *)
Definition formatTime (hh mm : nat) : string :=
  padStart0 2 (decimalOf hh) ++ ":" ++ padStart0 2 (decimalOf mm).

Section Cells.

(** [Math.round(v * 24 * 60)]: an integer when it is finite, nothing when
    it is NaN or infinite. Floating-point, kept abstract. *)
Variable roundDayMinutes : number -> option Z.

(** [excelSerialDateToISO(serial)]: calendar arithmetic of [Date], kept
    abstract. *)
Variable excelSerialDateToISO : number -> string.

(** [Number(raw)] and [String(v)] for a number [v], kept abstract. *)
Variable stringToNumber : string -> number.
Variable numberToString : number -> string.

(** [toTimeFromCell(v)] for a cell that is absent, a number or a string. *)
Definition toTimeFromCell (v : jsval) : string :=
  match v with
  | JUndefined | JNull => EmptyString
  | JNum x =>
      match roundDayMinutes x with
      | None => "NaN:NaN"
      | Some totalMinutes =>
          let minutesPerDay := 1440%Z in
          let totalMinutes :=
            Z.rem (Z.rem totalMinutes minutesPerDay + minutesPerDay) minutesPerDay in
          let hh := padStart0 2 (decimalOf (Z.to_nat (totalMinutes / 60))) in
          let mm := padStart0 2 (decimalOf (Z.to_nat (Z.rem totalMinutes 60))) in
          hh ++ ":" ++ mm
      end
  | JStr v =>
      if isEmpty v then EmptyString
      else
        let s := trim v in
        if isEmpty s then EmptyString
        else
          match matchTime s with
          | Some (h, m) =>
              let hh := valueOfDigits h in
              let mm := match m with Some m => valueOfDigits m | None => 0 end in
              let hh := ((hh mod 24) + 24) mod 24 in
              let mm := ((mm mod 60) + 60) mod 60 in
              padStart0 2 (decimalOf hh) ++ ":" ++ padStart0 2 (decimalOf mm)
          | None => s
          end
  end.

(** The part of [toISODateFromCell] that works on the trimmed text. *)
Definition isoDateFromText (raw : string) : string :=
  if isEmpty raw then EmptyString
  else if isISODate raw then raw
  else
    let asNum := stringToNumber raw in
    if num_gtb asNum (Finite 30000) && num_ltb asNum (Finite 60000)
    then excelSerialDateToISO asNum
    else
      match matchDMY raw with
      | Some (d, mo, y) =>
          let y := if String.length y =? 2 then ("20" ++ y)%string else y in
          padStart0 4 y ++ "-" ++ padStart0 2 mo ++ "-" ++ padStart0 2 d
      | None => raw
      end.

(** [toISODateFromCell(v)] for a cell that is absent, a number or a
    string ([Date] objects are not cells of this model). *)
Definition toISODateFromCell (v : jsval) : string :=
  match v with
  | JUndefined | JNull => EmptyString
  | JNum x =>
      if num_gtb x (Finite 30000) && num_ltb x (Finite 60000)
      then excelSerialDateToISO x
      else isoDateFromText (trim (numberToString x))
  | JStr s =>
      if isEmpty s then EmptyString else isoDateFromText (trim s)
  end.

End Cells.

(** A stand-in for [Number] on strings, for the examples: the value of a
    string of digits, NaN for any other string. *)
Definition digitsToNumber (s : string) : number :=
  if allDigits s && negb (isEmpty s) then Finite (inject_Z (Z.of_nat (valueOfDigits s)))
  else NaN.

(* ================================================================== *)
(** * Properties *)

(* ------------------------------------------------------------------ *)
(** ** Strings *)

Lemma isEmpty_true (s : string) : isEmpty s = true <-> s = EmptyString.
Proof. destruct s; simpl; split; congruence. Qed.

Lemma isEmpty_false (s : string) : isEmpty s = false <-> s <> EmptyString.
Proof. destruct s; simpl; split; congruence. Qed.

Lemma lowerChar_whiteSpace (c : ascii) : isWhiteSpace (lowerChar c) = isWhiteSpace c.
Proof. destruct c as [[] [] [] [] [] [] [] []]; reflexivity. Qed.

Lemma isEmpty_toLowerCase (s : string) : isEmpty (toLowerCase s) = isEmpty s.
Proof. destruct s; reflexivity. Qed.

Lemma toLowerCase_trimStart (s : string) :
  toLowerCase (trimStart s) = trimStart (toLowerCase s).
Proof.
  induction s as [|c r IH]; simpl; [reflexivity|].
  rewrite lowerChar_whiteSpace.
  destruct (isWhiteSpace c); [exact IH | reflexivity].
Qed.

Lemma toLowerCase_trimEnd (s : string) :
  toLowerCase (trimEnd s) = trimEnd (toLowerCase s).
Proof.
  induction s as [|c r IH]; simpl; [reflexivity|].
  rewrite <- IH, lowerChar_whiteSpace.
  destruct (trimEnd r) as [|c' r']; simpl.
  - destruct (isWhiteSpace c); reflexivity.
  - reflexivity.
Qed.

Lemma toLowerCase_trim (s : string) : toLowerCase (trim s) = trim (toLowerCase s).
Proof. unfold trim. now rewrite toLowerCase_trimEnd, toLowerCase_trimStart. Qed.

(* ------------------------------------------------------------------ *)
(** ** Zone clusters *)

Lemma matchesAlias_true (lower : string) (zs : list string) :
  matchesAlias lower zs = true <-> exists a, In a zs /\ lower = toLowerCase a.
Proof.
  induction zs as [|z r IH]; simpl.
  - split; [discriminate | intros [a [[] _]]].
  - destruct (String.eqb_spec lower (toLowerCase z)) as [E|E].
    + split; [intros _; exists z; auto | reflexivity].
    + rewrite IH. split.
      * intros [a [Ha Hl]]. exists a. auto.
      * intros [a [[Ha|Ha] Hl]]; [subst; contradiction | exists a; auto].
Qed.

Lemma matchesAlias_false (lower : string) (zs : list string) :
  matchesAlias lower zs = false <-> forall a, In a zs -> lower <> toLowerCase a.
Proof.
  split.
  - intros H a Ha E.
    assert (matchesAlias lower zs = true) by (apply matchesAlias_true; eauto).
    congruence.
  - intros H. destruct (matchesAlias lower zs) eqn:E; [|reflexivity].
    apply matchesAlias_true in E. destruct E as [a [Ha E]]. now apply H in Ha.
Qed.

Lemma firstCluster_first (lower : string) (pre post : list ZoneCluster) (c : ZoneCluster) :
  (forall c', In c' pre -> matchesAlias lower (zones c') = false) ->
  matchesAlias lower (zones c) = true ->
  firstCluster lower (pre ++ c :: post) = Some (label c).
Proof.
  induction pre as [|p pre IH]; simpl; intros Hpre Hc.
  - now rewrite Hc.
  - rewrite (Hpre p (or_introl eq_refl)). apply IH; auto.
Qed.

Lemma firstCluster_none (lower : string) (clusters : list ZoneCluster) :
  firstCluster lower clusters = None <->
  forall c, In c clusters -> matchesAlias lower (zones c) = false.
Proof.
  induction clusters as [|c r IH]; simpl.
  - split; [intros _ c [] | reflexivity].
  - destruct (matchesAlias lower (zones c)) eqn:E.
    + split; [discriminate|]. intros H. specialize (H c (or_introl eq_refl)). congruence.
    + rewrite IH. split.
      * intros H c' [<-|Hc']; auto.
      * intros H c' Hc'. apply H. now right.
Qed.

(** The three cases of the lookup, for any cluster list. *)
Lemma zoneClusterNameIn_cases (clusters : list ZoneCluster) (z : string) :
  (trim z = EmptyString -> zoneClusterNameIn clusters z = "(unknown)") /\
  (trim z <> EmptyString ->
   forall pre c post, clusters = pre ++ c :: post ->
     (exists a, In a (zones c) /\ toLowerCase (trim z) = toLowerCase a) ->
     (forall c' a, In c' pre -> In a (zones c') ->
        toLowerCase (trim z) <> toLowerCase a) ->
     zoneClusterNameIn clusters z = label c) /\
  (trim z <> EmptyString ->
   (forall c a, In c clusters -> In a (zones c) ->
      toLowerCase (trim z) <> toLowerCase a) ->
   zoneClusterNameIn clusters z = trim z).
Proof.
  unfold zoneClusterNameIn. repeat split.
  - intros E. now rewrite E.
  - intros NE pre c post -> Hc Hpre.
    apply isEmpty_false in NE. rewrite NE.
    rewrite (firstCluster_first _ pre post c); [reflexivity| |].
    + intros c' Hc'. apply matchesAlias_false. intros a Ha. eapply Hpre; eauto.
    + now apply matchesAlias_true.
  - intros NE Hall. apply isEmpty_false in NE. rewrite NE.
    assert (firstCluster (toLowerCase (trim z)) clusters = None) as ->; [|reflexivity].
    apply firstCluster_none. intros c Hc. apply matchesAlias_false.
    intros a Ha. now apply Hall with c.
Qed.

(** C5. [getZoneClusterName] trims its argument; an empty result gives
    the literal "(unknown)"; otherwise the label of the first configured
    cluster one of whose aliases equals the trimmed name once both are
    lower-cased; otherwise the trimmed name in its original case. *)
Theorem getZoneClusterName_spec (z : string) :
  (trim z = EmptyString -> getZoneClusterName z = "(unknown)") /\
  (trim z <> EmptyString ->
   forall pre c post, ZONE_CLUSTERS = pre ++ c :: post ->
     (exists a, In a (zones c) /\ toLowerCase (trim z) = toLowerCase a) ->
     (forall c' a, In c' pre -> In a (zones c') ->
        toLowerCase (trim z) <> toLowerCase a) ->
     getZoneClusterName z = label c) /\
  (trim z <> EmptyString ->
   (forall c a, In c ZONE_CLUSTERS -> In a (zones c) ->
      toLowerCase (trim z) <> toLowerCase a) ->
   getZoneClusterName z = trim z).
Proof. exact (zoneClusterNameIn_cases ZONE_CLUSTERS z). Qed.

(** Names equal up to letter case get labels equal up to letter case, and
    the same label as soon as one of them is empty or matches an alias. *)
Lemma zoneClusterNameIn_up_to_case (clusters : list ZoneCluster) (z1 z2 : string) :
  toLowerCase z1 = toLowerCase z2 ->
  toLowerCase (zoneClusterNameIn clusters z1) = toLowerCase (zoneClusterNameIn clusters z2) /\
  (trim z1 = EmptyString \/ firstCluster (toLowerCase (trim z1)) clusters <> None ->
   zoneClusterNameIn clusters z1 = zoneClusterNameIn clusters z2).
Proof.
  intros E.
  assert (L : toLowerCase (trim z1) = toLowerCase (trim z2))
    by now rewrite !toLowerCase_trim, E.
  assert (Em : isEmpty (trim z1) = isEmpty (trim z2))
    by now rewrite <- (isEmpty_toLowerCase (trim z1)), L, isEmpty_toLowerCase.
  unfold zoneClusterNameIn. rewrite <- Em, <- L.
  destruct (isEmpty (trim z1)) eqn:E1.
  - split; reflexivity.
  - destruct (firstCluster (toLowerCase (trim z1)) clusters) as [l|].
    + split; reflexivity.
    + split; [exact L|]. apply isEmpty_false in E1. intros [H|H]; contradiction.
Qed.

(** C6, as the code has it. For names [z1], [z2] equal up to letter case
    the two labels are equal up to letter case; they are the same string
    whenever the trimmed name is empty or matches a configured alias, as
    for "MUTLEY" and "mutley". A name that matches no alias is returned in
    its own case. *)
Theorem getZoneClusterName_up_to_case (z1 z2 : string) :
  toLowerCase z1 = toLowerCase z2 ->
  toLowerCase (getZoneClusterName z1) = toLowerCase (getZoneClusterName z2) /\
  (trim z1 = EmptyString \/ firstCluster (toLowerCase (trim z1)) ZONE_CLUSTERS <> None ->
   getZoneClusterName z1 = getZoneClusterName z2) /\
  getZoneClusterName "MUTLEY" = getZoneClusterName "mutley".
Proof.
  intros E. destruct (zoneClusterNameIn_up_to_case ZONE_CLUSTERS z1 z2 E) as [A B].
  split; [exact A | split; [exact B | reflexivity]].
Qed.

Lemma getZoneClusterName_up_to_case_witness :
  toLowerCase "North HILL " = toLowerCase "north hill " /\
  getZoneClusterName "North HILL " = getZoneClusterName "north hill ".
Proof.
  split; [reflexivity|].
  destruct (getZoneClusterName_up_to_case "North HILL " "north hill " eq_refl)
    as [_ [H _]].
  apply H. right. vm_compute. discriminate.
Defined.

(** C6, as stated, fails: two spellings of a zone outside every cluster
    are equal up to letter case and get different labels. *)
Lemma getZoneClusterName_case_sensitive :
  toLowerCase "PLYMSTOCK" = toLowerCase "plymstock" /\
  getZoneClusterName "PLYMSTOCK" = "PLYMSTOCK" /\
  getZoneClusterName "plymstock" = "plymstock" /\
  getZoneClusterName "PLYMSTOCK" <> getZoneClusterName "plymstock".
Proof. repeat split; try reflexivity. vm_compute. discriminate. Qed.

(** C9, as the code has it. The cluster list is read as it stands, with
    no check: a name whose alias is claimed by two clusters is resolved, at
    call time and without error, to the label of the first cluster in the
    list that claims it. *)
Theorem shared_alias_resolves_to_first
    (pre mid post : list ZoneCluster) (c1 c2 : ZoneCluster) (alias z : string) :
  In alias (zones c1) -> In alias (zones c2) ->
  trim z <> EmptyString ->
  toLowerCase (trim z) = toLowerCase alias ->
  (forall c' a, In c' pre -> In a (zones c') -> toLowerCase (trim z) <> toLowerCase a) ->
  zoneClusterNameIn (pre ++ c1 :: mid ++ c2 :: post) z = label c1.
Proof.
  intros H1 _ NE L Hpre.
  destruct (zoneClusterNameIn_cases (pre ++ c1 :: mid ++ c2 :: post) z) as [_ [H _]].
  apply (H NE pre c1 (mid ++ c2 :: post) eq_refl); eauto.
Qed.

Lemma shared_alias_resolves_to_first_witness :
  zoneClusterNameIn ambiguousClusters " LIPSON" = "East".
Proof.
  apply (shared_alias_resolves_to_first [] [] []
           {| label := "East"; zones := ["Lipson"; "Mount Gould"] |}
           {| label := "Centre"; zones := ["Mutley"; "Lipson"] |}
           "Lipson" " LIPSON").
  - simpl. auto.
  - simpl. auto.
  - vm_compute. discriminate.
  - reflexivity.
  - intros c' a [].
Defined.

(** C9, as stated, fails: in [ambiguousClusters] the clusters East and
    Centre both claim Lipson; the lookup of Lipson raises nothing and
    answers East, the lookup of Mutley answers Centre. *)
Lemma ambiguous_clusters_resolve :
  In "Lipson" (zones (mkCluster "East" ["Lipson"; "Mount Gould"])) /\
  In "Lipson" (zones (mkCluster "Centre" ["Mutley"; "Lipson"])) /\
  ambiguousClusters = [ mkCluster "East" ["Lipson"; "Mount Gould"];
                        mkCluster "Centre" ["Mutley"; "Lipson"] ] /\
  zoneClusterNameIn ambiguousClusters "Lipson" = "East" /\
  zoneClusterNameIn ambiguousClusters "Mutley" = "Centre".
Proof. repeat split; simpl; auto. Qed.

(* ------------------------------------------------------------------ *)
(** ** Comparison of numbers *)

Lemma num_ltb_finite (x y : Q) : num_ltb (Finite x) (Finite y) = true <-> (x < y)%Q.
Proof.
  simpl. rewrite negb_true_iff. split.
  - intros H. apply Qnot_le_lt. intros L. apply Qle_bool_iff in L. congruence.
  - intros H. destruct (Qle_bool y x) eqn:E; [|reflexivity].
    apply Qle_bool_iff in E. exfalso. exact (Qlt_not_le _ _ H E).
Qed.





Lemma properDistance_lt_Infinity (d : number) :
  properDistance d -> num_ltb d Infinity = true.
Proof. intros [q [-> _]]. reflexivity. Qed.

Lemma properDistance_gt_minus_one (d : number) :
  properDistance d -> num_gtb d (Finite (- 1)) = true.
Proof.
  intros [q [-> Hq]]. unfold num_gtb. apply num_ltb_finite.
  apply Qlt_le_trans with (y := 0%Q); [reflexivity | exact Hq].
Qed.

(* ------------------------------------------------------------------ *)
(** ** The scans *)

Lemma furthestScan_scanWith haversineDistance (l : list Address) (i : nat) (st : nat * number) :
  furthestScan haversineDistance l i st
  = scanWith (hubDistance haversineDistance) num_gtb l i st.
Proof.
  revert i st. induction l as [|s r IH]; intros i st; simpl; [reflexivity|].
  now rewrite IH.
Qed.

Lemma nearestScan_scanWith haversineDistance (clat clng : jsval)
    (l : list Address) (i : nat) (st : nat * number) :
  nearestScan haversineDistance clat clng l i st
  = scanWith (distanceFrom haversineDistance clat clng) num_ltb l i st.
Proof.
  revert i st. induction l as [|s r IH]; intros i st; simpl; [reflexivity|].
  now rewrite IH.
Qed.

Section Scan.

Variable dist : Address -> number.
Variable beats : number -> number -> bool.

(** Either no stop replaced the initial state, and then no stop with
    coordinates beats the initial bound; or the scan ends on a stop of the
    list, which has coordinates and beats the initial bound. *)
Lemma scanWith_cases (l : list Address) (i : nat) (st : nat * number) :
  (scanWith dist beats l i st = st /\
   forall s, In s l -> hasCoords s = true -> beats (dist s) (snd st) = false)
  \/
  (exists k x, nth_error l k = Some x /\
     scanWith dist beats l i st = (i + k, dist x) /\
     hasCoords x = true).
Proof.
  revert i st. induction l as [|s r IH]; intros i st; simpl.
  - left. split; [reflexivity | intros s []].
  - destruct (hasCoords s) eqn:Hc; simpl.
    + destruct (beats (dist s) (snd st)) eqn:Hb.
      * right. destruct (IH (S i) (i, dist s)) as [[E _]|[k [x [Hk [E Hx]]]]].
        -- exists 0, s. rewrite E, Nat.add_0_r. auto.
        -- exists (S k), x. rewrite E, Nat.add_succ_r. auto.
      * destruct (IH (S i) st) as [[E H]|[k [x [Hk [E Hx]]]]].
        -- left. split; [exact E|]. intros s' [<-|Hs'] Hc'; auto.
        -- right. exists (S k), x. rewrite E, Nat.add_succ_r. auto.
    + destruct (IH (S i) st) as [[E H]|[k [x [Hk [E Hx]]]]].
      * left. split; [exact E|]. intros s' [<-|Hs'] Hc'; [congruence | auto].
      * right. exists (S k), x. rewrite E, Nat.add_succ_r. auto.
Qed.

(** The index left by a scan started at [(0, bound)] from index 0 points
    into a non-empty list. *)
Lemma scanWith_in_range (l : list Address) (bound : number) :
  l <> [] -> fst (scanWith dist beats l 0 (0, bound)) < List.length l.
Proof.
  intros NE. destruct (scanWith_cases l 0 (0, bound)) as [[E _]|[k [x [Hk [E _]]]]].
  - rewrite E. simpl. destruct l; [contradiction | simpl; lia].
  - rewrite E. simpl. apply nth_error_Some. congruence.
Qed.

(** A stop without coordinates is only ever pointed at by default: the
    index is then 0 and no stop with coordinates beat the bound. *)
Lemma scanWith_coordless (l : list Address) (bound : number) (s : Address) :
  nth_error l (fst (scanWith dist beats l 0 (0, bound))) = Some s ->
  hasCoords s = false ->
  fst (scanWith dist beats l 0 (0, bound)) = 0 /\
  forall s', In s' l -> hasCoords s' = true -> beats (dist s') bound = false.
Proof.
  intros Hn Hc. destruct (scanWith_cases l 0 (0, bound)) as [[E H]|[k [x [Hk [E Hx]]]]].
  - rewrite E. split; [reflexivity | exact H].
  - rewrite E in Hn. simpl in Hn. congruence.
Qed.

Hypothesis beats_irrefl : forall a, beats a a = false.
Hypothesis beats_trans :
  forall a b c, beats a b = true -> beats b c = true -> beats a c = true.
Hypothesis beats_cotrans :
  forall a b c, b <> NaN -> beats a c = true -> beats a b = true \/ beats b c = true.


End Scan.

(* ------------------------------------------------------------------ *)
(** ** Removing one element *)

Lemma splice_at {A : Type} (l : list A) (i : nat) (x : A) :
  nth_error l i = Some x ->
  splice i l = ([x], firstn i l ++ skipn (S i) l).
Proof.
  unfold splice. intros H. f_equal.
  revert i H. induction l as [|a l IH]; intros [|i] H; simpl in *; try discriminate.
  - injection H as ->. reflexivity.
  - now apply IH.
Qed.

Lemma remove_Permutation {A : Type} (l : list A) (i : nat) (x : A) :
  nth_error l i = Some x ->
  Permutation l (x :: firstn i l ++ skipn (S i) l).
Proof.
  revert i. induction l as [|a l IH]; intros [|i] H; simpl in *; try discriminate.
  - injection H as ->. reflexivity.
  - rewrite perm_swap. constructor. now apply IH.
Qed.

Lemma remove_length {A : Type} (l : list A) (i : nat) (x : A) :
  nth_error l i = Some x ->
  S (List.length (firstn i l ++ skipn (S i) l)) = List.length l.
Proof.
  intros H. apply remove_Permutation in H. apply Permutation_length in H.
  symmetry. exact H.
Qed.


(* ------------------------------------------------------------------ *)
(** ** The walk *)

Section Walk.

Variable hav : jsval -> jsval -> jsval -> jsval -> number.

Lemma bestIdx_in_range (clat clng : jsval) (remaining : list Address) :
  remaining <> [] -> bestIdx hav clat clng remaining < List.length remaining.
Proof.
  intros NE. unfold bestIdx. rewrite nearestScan_scanWith.
  now apply scanWith_in_range.
Qed.

Lemma startIdx_in_range (remaining : list Address) :
  remaining <> [] -> startIdx hav remaining < List.length remaining.
Proof.
  intros NE. unfold startIdx. rewrite furthestScan_scanWith.
  now apply scanWith_in_range.
Qed.

Lemma bestIdx_selects (clat clng : jsval) (remaining : list Address) :
  remaining <> [] ->
  exists next, nth_error remaining (bestIdx hav clat clng remaining) = Some next.
Proof.
  intros NE. destruct (nth_error remaining (bestIdx hav clat clng remaining)) eqn:E; eauto.
  apply nth_error_None in E. pose proof (bestIdx_in_range clat clng remaining NE). lia.
Qed.

Lemma startIdx_selects (remaining : list Address) :
  remaining <> [] ->
  exists current, nth_error remaining (startIdx hav remaining) = Some current.
Proof.
  intros NE. destruct (nth_error remaining (startIdx hav remaining)) eqn:E; eauto.
  apply nth_error_None in E. pose proof (startIdx_in_range remaining NE). lia.
Qed.

(** One turn of the loop on a non-empty [remaining]. *)
Lemma nearestWalk_turn (budget : nat) (clat clng : jsval)
    (remaining ordered : list Address) (next : Address) :
  nth_error remaining (bestIdx hav clat clng remaining) = Some next ->
  nearestWalk hav (S budget) clat clng remaining ordered
  = nearestWalk hav budget (lat next) (lng next)
      (firstn (bestIdx hav clat clng remaining) remaining
         ++ skipn (S (bestIdx hav clat clng remaining)) remaining)
      (ordered ++ [next]).
Proof.
  intros H. destruct remaining as [|a r].
  - destruct (bestIdx hav clat clng []); simpl in H; discriminate.
  - cbn -[splice bestIdx]. rewrite (splice_at _ _ _ H). reflexivity.
Qed.

(** The loop ends within [length remaining] turns, without throwing, and
    appends a permutation of [remaining] to [ordered]. *)
Lemma nearestWalk_returns (budget : nat) :
  forall (clat clng : jsval) (remaining ordered : list Address),
    List.length remaining <= budget ->
    exists out, nearestWalk hav budget clat clng remaining ordered = Returned (ordered ++ out)
             /\ Permutation remaining out.
Proof.
  induction budget as [|budget IH]; intros clat clng remaining ordered Hlen.
  - destruct remaining; [|simpl in Hlen; lia].
    exists []. rewrite app_nil_r. split; [reflexivity | constructor].
  - destruct remaining as [|a r] eqn:Er.
    + exists []. rewrite app_nil_r. split; [reflexivity | constructor].
    + rewrite <- Er in *.
      assert (NE : remaining <> []) by (rewrite Er; discriminate).
      destruct (bestIdx_selects clat clng remaining NE) as [next Hn].
      rewrite (nearestWalk_turn budget clat clng remaining ordered next Hn).
      pose proof (remove_length _ _ _ Hn) as Hl.
      destruct (IH (lat next) (lng next)
                  (firstn (bestIdx hav clat clng remaining) remaining
                     ++ skipn (S (bestIdx hav clat clng remaining)) remaining)
                  (ordered ++ [next])) as [out [E P]]; [lia|].
      exists (next :: out). split.
      * rewrite E, <- app_assoc. reflexivity.
      * rewrite (remove_Permutation _ _ _ Hn). now constructor.
Qed.

(** What [optimiseRoute] computes on an array of two or more stops. *)
Lemma optimiseRoute_inbound (stops : list Address) (current : Address) :
  1 < List.length stops ->
  nth_error stops (startIdx hav stops) = Some current ->
  optimiseRoute hav stops (JStr "inbound")
  = nearestWalk hav (List.length stops - 1) (lat current) (lng current)
      (firstn (startIdx hav stops) stops ++ skipn (S (startIdx hav stops)) stops) [current].
Proof.
  intros Hlen Hc. unfold optimiseRoute.
  destruct (Nat.leb_spec (List.length stops) 1) as [L|_]; [lia|].
  simpl strictEqStr. cbv iota.
  rewrite (splice_at _ _ _ Hc). simpl app.
  pose proof (remove_length _ _ _ Hc) as Hl.
  replace (List.length stops - 1)
    with (List.length (firstn (startIdx hav stops) stops ++ skipn (S (startIdx hav stops)) stops))
    by lia.
  reflexivity.
Qed.

Lemma optimiseRoute_short (stops : list Address) (direction : jsval) :
  List.length stops <= 1 -> optimiseRoute hav stops direction = Returned stops.
Proof.
  intros L. unfold optimiseRoute.
  destruct (Nat.leb_spec (List.length stops) 1) as [_|G]; [reflexivity | lia].
Qed.

Lemma optimiseRoute_default (stops : list Address) :
  optimiseRoute hav stops JUndefined = optimiseRoute hav stops (JStr "inbound").
Proof. reflexivity. Qed.

Lemma optimiseRoute_outbound (stops : list Address) (direction : jsval) :
  direction <> JUndefined -> direction <> JStr "inbound" ->
  optimiseRoute hav stops direction
  = nearestWalk hav (List.length stops) (JNum DH_LAT) (JNum DH_LNG) stops [].
Proof.
  intros NU NI. unfold optimiseRoute.
  assert (Hd : strictEqStr match direction with JUndefined => JStr "inbound" | _ => direction end
                 "inbound" = false).
  { destruct direction as [| |x|s]; try reflexivity; [contradiction|].
    simpl. destruct (String.eqb_spec s "inbound"); [subst; contradiction | reflexivity]. }
  rewrite Hd.
  destruct (Nat.leb_spec (List.length stops) 1) as [L|G]; [|reflexivity].
  destruct stops as [|s [|t r]]; [reflexivity | | simpl in L; lia].
  assert (NE : [s] <> []) by discriminate.
  pose proof (bestIdx_in_range (JNum DH_LAT) (JNum DH_LNG) [s] NE) as Hb.
  simpl in Hb. simpl.
  replace (bestIdx hav (JNum DH_LAT) (JNum DH_LNG) [s]) with 0 by lia.
  reflexivity.
Qed.

Lemma optimiseRoute_returns (stops : list Address) (direction : jsval) :
  exists out, optimiseRoute hav stops direction = Returned out /\ Permutation stops out.
Proof.
  destruct (Nat.leb_spec (List.length stops) 1) as [L|G].
  - exists stops. split; [now apply optimiseRoute_short | reflexivity].
  - assert (NE : stops <> []) by (destruct stops; [simpl in G; lia | discriminate]).
    assert (Out : forall d, d <> JUndefined -> d <> JStr "inbound" ->
              exists out, optimiseRoute hav stops d = Returned out /\ Permutation stops out).
    { intros d NU NI. rewrite (optimiseRoute_outbound _ _ NU NI).
      destruct (nearestWalk_returns (List.length stops) (JNum DH_LAT) (JNum DH_LNG) stops [])
        as [out [E P]]; [lia|]. exists out. split; [exact E | exact P]. }
    assert (Inb : exists out, optimiseRoute hav stops (JStr "inbound") = Returned out
                           /\ Permutation stops out).
    { destruct (startIdx_selects stops NE) as [current Hc].
      rewrite (optimiseRoute_inbound _ _ G Hc).
      pose proof (remove_length _ _ _ Hc) as Hl.
      destruct (nearestWalk_returns (List.length stops - 1) (lat current) (lng current)
                  (firstn (startIdx hav stops) stops ++ skipn (S (startIdx hav stops)) stops)
                  [current]) as [out [E P]]; [lia|].
      exists (current :: out). split; [exact E|].
      rewrite (remove_Permutation _ _ _ Hc). now constructor. }
    destruct direction as [| |x|s].
    + rewrite optimiseRoute_default. exact Inb.
    + apply Out; discriminate.
    + apply Out; discriminate.
    + destruct (string_dec s "inbound") as [->|NI]; [exact Inb|].
      apply Out; [discriminate | congruence].
Qed.

End Walk.

(** C2. For every list of stops, duplicates and stops without coordinates
    included, and every direction, [optimiseRoute] returns, and what it
    returns is a permutation of its input. *)
Theorem optimiseRoute_permutation (hav : jsval -> jsval -> jsval -> jsval -> number)
    (stops : list Address) (direction : jsval) :
  exists out, optimiseRoute hav stops direction = Returned out /\ Permutation stops out.
Proof. exact (optimiseRoute_returns hav stops direction). Qed.

(* ------------------------------------------------------------------ *)
(** ** The nearest-neighbour rule *)

Section Rule.

Variable hav : jsval -> jsval -> jsval -> jsval -> number.




Lemma properDistances_hub (stops : list Address) (s : Address) :
  properDistances hav stops -> In s stops ->
  properDistance (hubDistance hav s) /\
  properDistance (distanceFrom hav (JNum DH_LAT) (JNum DH_LNG) s).
Proof.
  intros H Hs.
  assert (Hp : In (lat s, lng s) (positionsOf stops))
    by (right; apply in_map_iff; exists s; auto).
  assert (Hh : In (JNum DH_LAT, JNum DH_LNG) (positionsOf stops)) by now left.
  split.
  - exact (H _ _ Hp Hh).
  - exact (H _ _ Hh Hp).
Qed.

Lemma properDistances_between (stops : list Address) (s s' : Address) :
  properDistances hav stops -> In s stops -> In s' stops ->
  properDistance (distanceFrom hav (lat s) (lng s) s').
Proof.
  intros H Hs Hs'.
  assert (Hp : forall t, In t stops -> In (lat t, lng t) (positionsOf stops))
    by (intros t Ht; right; apply in_map_iff; exists t; auto).
  exact (H _ _ (Hp s Hs) (Hp s' Hs')).
Qed.



End Rule.

Lemma properDistances_example : properDistances taxicabDistance [stopA; stopB; stopC].
Proof.
  intros p q Hp Hq. simpl in Hp, Hq.
  repeat (destruct Hp as [<-|Hp]); try contradiction;
    repeat (destruct Hq as [<-|Hq]); try contradiction;
    (eexists; split; [reflexivity | vm_compute; discriminate]).
Qed.


(** A stop met before the chosen one cannot have a NaN key: the chosen
    stop has to compare strictly above (below) every stop before it, and
    no number compares with NaN. *)
Lemma firstMaxAt_not_after_NaN (key : Address -> number) (l : list Address)
    (i j : nat) (x y : Address) :
  firstMaxAt key l i x -> j < i -> nth_error l j = Some y -> key y <> NaN.
Proof.
  intros [_ [_ H]] Hj Hy E. specialize (H j y Hj Hy).
  rewrite E in H. unfold num_gtb in H. simpl in H. discriminate.
Qed.


(** Whatever the distance function: when the first of two stops with
    numeric coordinates has a NaN distance from the Hub and the second a
    finite non-negative one, the inbound route starts with the second,
    which the rule does not allow. *)
Lemma nan_hub_distance_not_seed (hav : jsval -> jsval -> jsval -> jsval -> number)
    (n a : Address) :
  hasCoords n = true -> hasCoords a = true ->
  hubDistance hav n = NaN -> properDistance (hubDistance hav a) ->
  optimiseRoute hav [n; a] (JStr "inbound") = Returned [a; n] /\
  ~ inboundRoute hav [n; a] [a; n].
Proof.
  intros Hn Ha En [q [Ea Hq]]. unfold hubDistance in En, Ea.
  assert (G : num_gtb (Finite q) (Finite (- 1)) = true).
  { unfold num_gtb, num_ltb. destruct (Qle_bool q (- 1)) eqn:E; [|reflexivity].
    apply Qle_bool_iff in E. exfalso. apply (Qle_not_lt _ _ (Qle_trans _ _ _ Hq E)).
    reflexivity. }
  split.
  - unfold optimiseRoute, startIdx. cbn -[splice nearestWalk].
    rewrite Hn, Ha. cbn -[splice nearestWalk num_gtb]. rewrite En, Ea.
    cbn -[splice nearestWalk num_gtb]. rewrite G. cbn -[bestIdx].
    unfold bestIdx. cbn. destruct (hasCoords n); cbn;
      [destruct (num_ltb _ _)|]; reflexivity.
  - intros (i & x & rest & E & Hmax & _). injection E as <- <-.
    pose proof Hmax as [Hi _].
    destruct i as [|[|i]]; simpl in Hi.
    + injection Hi as ->. rewrite En in Ea. discriminate.
    + apply (firstMaxAt_not_after_NaN _ _ _ 0 _ n Hmax); [lia | reflexivity | exact En].
    + destruct i; discriminate.
Qed.


(* ------------------------------------------------------------------ *)
(** ** Stops without coordinates *)

Lemma Permutation_all_in {A : Type} (l l' : list A) :
  Permutation l l' -> forall x, In x l -> In x l'.
Proof. intros P x. now apply Permutation_in. Qed.

(** C4, as the code has it. A stop without coordinates never wins a
    distance comparison. It is taken as the inbound seed, or as the next
    stop of the walk, only by default: when it is the first remaining stop
    and no remaining stop with coordinates has a distance above -1 (seed)
    or below Infinity (walk). Every stop of the input is in the output. *)
Theorem coordless_stop_taken_by_default (hav : jsval -> jsval -> jsval -> jsval -> number) :
  (forall stops s,
     nth_error stops (startIdx hav stops) = Some s -> hasCoords s = false ->
     startIdx hav stops = 0 /\
     forall s', In s' stops -> hasCoords s' = true ->
       num_gtb (hubDistance hav s') (Finite (- 1)) = false) /\
  (forall clat clng remaining s,
     nth_error remaining (bestIdx hav clat clng remaining) = Some s ->
     hasCoords s = false ->
     bestIdx hav clat clng remaining = 0 /\
     forall s', In s' remaining -> hasCoords s' = true ->
       num_ltb (distanceFrom hav clat clng s') Infinity = false) /\
  (forall stops direction,
     exists out, optimiseRoute hav stops direction = Returned out /\
                 forall s, In s stops -> In s out).
Proof.
  split; [|split].
  - intros stops s. unfold startIdx. rewrite furthestScan_scanWith.
    apply scanWith_coordless.
  - intros clat clng remaining s. unfold bestIdx. rewrite nearestScan_scanWith.
    apply scanWith_coordless.
  - intros stops direction.
    destruct (optimiseRoute_returns hav stops direction) as [out [E P]].
    exists out. split; [exact E | now apply Permutation_all_in].
Qed.

(** C4, as stated, fails. Inbound, with no geocoded stop, the seed is the
    first stop, which has no coordinates; outbound, once the geocoded stop
    is placed, the walk takes the stop without coordinates as its next
    stop. *)
Lemma coordless_stop_selected :
  hasCoords stopX = false /\
  nth_error [stopX; stopY] (startIdx taxicabDistance [stopX; stopY]) = Some stopX /\
  optimiseRoute taxicabDistance [stopX; stopY] (JStr "inbound") = Returned [stopX; stopY] /\
  nth_error [stopX] (bestIdx taxicabDistance (lat stopA) (lng stopA) [stopX]) = Some stopX /\
  optimiseRoute taxicabDistance [stopA; stopX] (JStr "outbound") = Returned [stopA; stopX].
Proof. repeat split. Qed.

(* ------------------------------------------------------------------ *)
(** ** Direction *)

(** C10. Whatever the direction, an omitted one apart, that is not the
    exact string "inbound", [optimiseRoute] runs the walk from the Hub over
    all the stops; an omitted direction is "inbound"; and "inbound" alone
    seeds the route with [startIdx], the furthest-stop scan, and walks from
    that stop over the others. *)
Theorem optimiseRoute_direction (hav : jsval -> jsval -> jsval -> jsval -> number)
    (stops : list Address) (direction : jsval) :
  (direction <> JUndefined -> direction <> JStr "inbound" ->
   optimiseRoute hav stops direction
   = nearestWalk hav (List.length stops) (JNum DH_LAT) (JNum DH_LNG) stops []) /\
  optimiseRoute hav stops JUndefined = optimiseRoute hav stops (JStr "inbound") /\
  (1 < List.length stops ->
   exists current,
     nth_error stops (startIdx hav stops) = Some current /\
     optimiseRoute hav stops (JStr "inbound")
     = nearestWalk hav (List.length stops - 1) (lat current) (lng current)
         (firstn (startIdx hav stops) stops ++ skipn (S (startIdx hav stops)) stops)
         [current]).
Proof.
  split; [|split].
  - apply optimiseRoute_outbound.
  - apply optimiseRoute_default.
  - intros G.
    assert (NE : stops <> []) by (destruct stops; [simpl in G; lia | discriminate]).
    destruct (startIdx_selects hav stops NE) as [current Hc].
    exists current. split; [exact Hc | now apply optimiseRoute_inbound].
Qed.

(* ------------------------------------------------------------------ *)
(** ** The bucket map *)

Lemma mapHas_mapGet {V : Type} (k : string) (m : list (string * V)) :
  mapHas k m = true <-> mapGet k m <> None.
Proof.
  induction m as [|[k' v] r IH]; simpl.
  - split; [discriminate | congruence].
  - destruct (String.eqb k' k); simpl; [split; [discriminate | reflexivity] | exact IH].
Qed.

Lemma mapGet_mapSet_same {V : Type} (k : string) (v : V) (m : list (string * V)) :
  mapGet k (mapSet k v m) = Some v.
Proof.
  induction m as [|[k' v'] r IH]; simpl.
  - now rewrite String.eqb_refl.
  - destruct (String.eqb k' k) eqn:E; simpl; rewrite E; [reflexivity | exact IH].
Qed.

Lemma mapGet_mapSet_other {V : Type} (k k' : string) (v : V) (m : list (string * V)) :
  k' <> k -> mapGet k' (mapSet k v m) = mapGet k' m.
Proof.
  intros NE. induction m as [|[k0 v0] r IH]; simpl.
  - destruct (String.eqb_spec k k'); [congruence | reflexivity].
  - destruct (String.eqb_spec k0 k) as [->|Hk]; simpl.
    + destruct (String.eqb_spec k k'); [congruence | reflexivity].
    + now rewrite IH.
Qed.

Lemma mapSet_mapSet {V : Type} (k : string) (v w : V) (m : list (string * V)) :
  mapSet k v (mapSet k w m) = mapSet k v m.
Proof.
  induction m as [|[k' v'] r IH]; simpl.
  - now rewrite String.eqb_refl.
  - destruct (String.eqb k' k) eqn:E; simpl; rewrite E; [reflexivity | now rewrite IH].
Qed.

Lemma mapGet_In {V : Type} (k : string) (v : V) (m : list (string * V)) :
  mapGet k m = Some v -> In (k, v) m.
Proof.
  induction m as [|[k' v'] r IH]; simpl; [discriminate|].
  destruct (String.eqb_spec k' k) as [->|NE].
  - intros [= ->]. now left.
  - intros H. right. now apply IH.
Qed.

Lemma mapSet_keys_present {V : Type} (k : string) (v b : V) (m : list (string * V)) :
  mapGet k m = Some b -> map fst (mapSet k v m) = map fst m.
Proof.
  induction m as [|[k' v'] r IH]; simpl; [discriminate|].
  destruct (String.eqb k' k); simpl; [reflexivity|].
  intros H. now rewrite IH.
Qed.

Lemma mapSet_keys_absent {V : Type} (k : string) (v : V) (m : list (string * V)) :
  mapGet k m = None -> mapSet k v m = m ++ [(k, v)].
Proof.
  induction m as [|[k' v'] r IH]; simpl; [reflexivity|].
  destruct (String.eqb k' k); [discriminate|].
  intros H. now rewrite IH.
Qed.

Lemma mapGet_None_keys {V : Type} (k : string) (m : list (string * V)) :
  mapGet k m = None -> ~ In k (map fst m).
Proof.
  induction m as [|[k' v'] r IH]; simpl; [tauto|].
  destruct (String.eqb_spec k' k) as [->|NE]; [discriminate|].
  intros H [E|Hin]; [contradiction | now apply IH].
Qed.

Lemma mapSet_NoDup {V : Type} (k : string) (v : V) (m : list (string * V)) :
  NoDup (map fst m) -> NoDup (map fst (mapSet k v m)).
Proof.
  intros ND. destruct (mapGet k m) as [b|] eqn:E.
  - now rewrite (mapSet_keys_present k v b m E).
  - rewrite (mapSet_keys_absent k v m E), map_app. simpl.
    apply NoDup_app; [exact ND | constructor; [tauto | constructor] |].
    intros a Ha [<-|[]]. now apply (mapGet_None_keys k m).
Qed.

(** Writing under [k] a value that satisfies [P] and sits well under [k]
    keeps a property of all entries. *)
Lemma mapSet_Forall {V : Type} (P : string * V -> Prop) (k : string) (v : V)
    (m : list (string * V)) :
  P (k, v) -> Forall P m -> Forall P (mapSet k v m).
Proof.
  intros Hv. induction m as [|[k' v'] r IH]; simpl; intros H.
  - constructor; [exact Hv | constructor].
  - inversion H; subst. destruct (String.eqb_spec k' k) as [->|NE].
    + constructor; assumption.
    + constructor; [assumption | now apply IH].
Qed.

(** The values of the map after a write, up to order, through a
    list-valued reading [f] of the values: the written value adds [extra]
    to what the key held. *)
Lemma mapSet_flat_map {V A : Type} (f : V -> list A) (k : string) (v : V)
    (m : list (string * V)) (extra : list A) :
  f v = match mapGet k m with Some b => f b | None => [] end ++ extra ->
  Permutation (flat_map f (map snd (mapSet k v m))) (flat_map f (map snd m) ++ extra).
Proof.
  induction m as [|[k' v'] r IH]; simpl; intros Hv.
  - rewrite Hv, app_nil_r. reflexivity.
  - destruct (String.eqb k' k); simpl.
    + rewrite Hv, <- !app_assoc. apply Permutation_app_head. apply Permutation_app_comm.
    + rewrite <- app_assoc. apply Permutation_app_head. now apply IH.
Qed.

(* ------------------------------------------------------------------ *)
(** ** The aggregation loop *)

(** A turn never throws: the bucket it fetches is there. *)
Lemma bucketStep_returns (m : list (string * Bucket.t)) (g : Group.t) :
  bucketStep m g = Returned (mapSet (bucketKey g) (addGroup (bucketFor m g) g) m).
Proof.
  unfold bucketStep, bucketFor. fold (bucketKey g). fold (newBucket g).
  destruct (mapGet (bucketKey g) m) as [b|] eqn:E.
  - assert (H : mapHas (bucketKey g) m = true) by (apply mapHas_mapGet; congruence).
    rewrite H. simpl. rewrite E. reflexivity.
  - assert (H : mapHas (bucketKey g) m = false).
    { destruct (mapHas (bucketKey g) m) eqn:F; [|reflexivity].
      apply mapHas_mapGet in F. contradiction. }
    rewrite H. simpl. rewrite mapGet_mapSet_same, mapSet_mapSet. reflexivity.
Qed.

Lemma bucketLoop_returns (groups : list Group.t) :
  forall m, bucketLoop m groups = Returned (bucketFold m groups).
Proof.
  induction groups as [|g r IH]; intros m; simpl; [reflexivity|].
  rewrite bucketStep_returns. simpl. apply IH.
Qed.

Lemma aggregate_returns (groups : list Group.t) :
  aggregate groups = Returned (map snd (bucketFold [] groups)).
Proof. unfold aggregate. now rewrite bucketLoop_returns. Qed.

Lemma setAdd_In (x : string) (s : list string) : In x (setAdd x s).
Proof.
  unfold setAdd. destruct (existsb (String.eqb x) s) eqn:E.
  - apply existsb_exists in E. destruct E as [y [Hy Exy]].
    apply String.eqb_eq in Exy. now subst.
  - apply in_or_app. right. now left.
Qed.

Lemma setAdd_keeps (x y : string) (s : list string) : In y s -> In y (setAdd x s).
Proof.
  intros H. unfold setAdd. destruct (existsb (String.eqb x) s); [exact H|].
  apply in_or_app. now left.
Qed.

Lemma keyOfBucket_addGroup (b : Bucket.t) (g : Group.t) :
  keyOfBucket (addGroup b g) = keyOfBucket b.
Proof. reflexivity. Qed.

Lemma keyOfBucket_newBucket (g : Group.t) : keyOfBucket (newBucket g) = bucketKey g.
Proof. reflexivity. Qed.

Lemma bucketFor_wellKeyed (m : list (string * Bucket.t)) (g : Group.t) :
  Forall wellKeyed m -> keyOfBucket (bucketFor m g) = bucketKey g.
Proof.
  intros H. unfold bucketFor. destruct (mapGet (bucketKey g) m) as [b|] eqn:E.
  - apply mapGet_In in E. rewrite Forall_forall in H. symmetry. exact (H _ E).
  - reflexivity.
Qed.

Lemma bucketFor_plain (m : list (string * Bucket.t)) (g : Group.t) :
  Forall plainEntry m -> plainKeyed g = true ->
  plainText (Bucket.pickupDateISO (bucketFor m g)) = true /\
  plainText (Bucket.onOffDutyTime (bucketFor m g)) = true.
Proof.
  intros H Hg. unfold bucketFor. destruct (mapGet (bucketKey g) m) as [b|] eqn:E.
  - apply mapGet_In in E. rewrite Forall_forall in H. exact (H _ E).
  - simpl. now apply andb_true_iff in Hg.
Qed.

Lemma bucketFold_app (groups : list Group.t) (g : Group.t) (m : list (string * Bucket.t)) :
  bucketFold m (groups ++ [g])
  = mapSet (bucketKey g) (addGroup (bucketFor (bucketFold m groups) g) g) (bucketFold m groups).
Proof. unfold bucketFold. now rewrite fold_left_app. Qed.

Lemma bucketFold_wellKeyed (groups : list Group.t) :
  forall m, Forall wellKeyed m -> Forall wellKeyed (bucketFold m groups).
Proof.
  induction groups as [|g r IH]; intros m H; [exact H|].
  apply IH. apply mapSet_Forall; [|exact H].
  unfold wellKeyed. simpl. rewrite keyOfBucket_addGroup. symmetry.
  now apply bucketFor_wellKeyed.
Qed.

Lemma bucketFold_plain (groups : list Group.t) :
  Forall (fun g => plainKeyed g = true) groups ->
  forall m, Forall plainEntry m -> Forall plainEntry (bucketFold m groups).
Proof.
  induction groups as [|g r IH]; intros Hg m H; [exact H|].
  inversion Hg; subst. apply IH; [assumption|].
  apply mapSet_Forall; [|exact H].
  unfold plainEntry. simpl. now apply bucketFor_plain.
Qed.

Lemma bucketFold_NoDup (groups : list Group.t) :
  forall m, NoDup (map fst m) -> NoDup (map fst (bucketFold m groups)).
Proof.
  induction groups as [|g r IH]; intros m H; [exact H|].
  apply IH. now apply mapSet_NoDup.
Qed.

(** A turn puts its group in the map and keeps the groups already there. *)
Lemma step_holds (m : list (string * Bucket.t)) (g : Group.t) :
  holdsGroup (mapSet (bucketKey g) (addGroup (bucketFor m g) g) m) g.
Proof.
  exists (addGroup (bucketFor m g) g). split; [apply mapGet_mapSet_same|]. split.
  - simpl. apply incl_appr, incl_refl.
  - simpl. apply setAdd_In.
Qed.

Lemma step_keeps (m : list (string * Bucket.t)) (g g' : Group.t) :
  holdsGroup m g' ->
  holdsGroup (mapSet (bucketKey g) (addGroup (bucketFor m g) g) m) g'.
Proof.
  intros [b [E [Hi Hz]]].
  destruct (string_dec (bucketKey g') (bucketKey g)) as [K|K].
  - exists (addGroup (bucketFor m g) g). rewrite K. split; [apply mapGet_mapSet_same|].
    unfold bucketFor. rewrite <- K, E. split.
    + simpl. now apply incl_appl.
    + simpl. now apply setAdd_keeps.
  - exists b. rewrite (mapGet_mapSet_other _ _ _ _ K). auto.
Qed.

Lemma bucketFold_keeps (groups : list Group.t) (g' : Group.t) :
  forall m, holdsGroup m g' -> holdsGroup (bucketFold m groups) g'.
Proof.
  induction groups as [|g r IH]; intros m H; [exact H|].
  apply IH. now apply step_keeps.
Qed.

Lemma bucketFold_holds (groups : list Group.t) (g : Group.t) :
  In g groups -> forall m, holdsGroup (bucketFold m groups) g.
Proof.
  induction groups as [|g0 r IH]; intros Hin m; [destruct Hin|].
  destruct Hin as [->|Hin].
  - simpl. apply bucketFold_keeps, step_holds.
  - simpl. now apply IH.
Qed.

(** All the addresses of the groups are in the buckets, each as often. *)
Lemma bucketFold_addresses (groups : list Group.t) :
  forall m,
    Permutation (flat_map Bucket.addresses (map snd (bucketFold m groups)))
                (flat_map Bucket.addresses (map snd m) ++ flat_map Group.addresses groups).
Proof.
  induction groups as [|g r IH]; intros m; simpl.
  - now rewrite app_nil_r.
  - rewrite IH. rewrite app_assoc. apply Permutation_app_tail.
    apply mapSet_flat_map. unfold bucketFor.
    destruct (mapGet (bucketKey g) m); reflexivity.
Qed.

(* ------------------------------------------------------------------ *)
(** ** Keys *)

Lemma separator_injective (a b x y : string) :
  noUnderscore a = true -> noUnderscore b = true ->
  (a ++ "__" ++ x)%string = (b ++ "__" ++ y)%string -> a = b /\ x = y.
Proof.
  revert b. induction a as [|c a IH]; intros [|d b] Ha Hb E; simpl in *.
  - injection E as ->. auto.
  - injection E as <- _. simpl in Hb. discriminate.
  - injection E as -> _. simpl in Ha. discriminate.
  - injection E as -> E. apply andb_true_iff in Ha, Hb.
    destruct (IH b (proj2 Ha) (proj2 Hb) E) as [-> ->]. auto.
Qed.

Lemma bucketKeyOf_injective (d1 t1 d2 t2 : jstext) (c1 c2 : string) :
  plainText d1 = true -> plainText t1 = true ->
  plainText d2 = true -> plainText t2 = true ->
  bucketKeyOf d1 t1 c1 = bucketKeyOf d2 t2 c2 ->
  d1 = d2 /\ t1 = t2 /\ c1 = c2.
Proof.
  destruct d1 as [| |d1], t1 as [| |t1], d2 as [| |d2], t2 as [| |t2];
    try discriminate.
  unfold bucketKeyOf. simpl plainText. simpl templateString. intros Hd1 Ht1 Hd2 Ht2 E.
  destruct (separator_injective _ _ _ _ Hd1 Hd2 E) as [-> E'].
  destruct (separator_injective _ _ _ _ Ht1 Ht2 E') as [-> ->]. auto.
Qed.

Lemma getZoneClusterName_originalZone (g : Group.t) :
  getZoneClusterName (originalZoneOf g) = getZoneClusterName (Group.zoneName g).
Proof.
  unfold originalZoneOf. destruct (Group.zoneName g); reflexivity.
Qed.

(* ------------------------------------------------------------------ *)
(** ** Bucket aggregation *)

Lemma holdsGroup_bucket (m : list (string * Bucket.t)) (g : Group.t) :
  Forall wellKeyed m -> holdsGroup m g ->
  exists b, In (bucketKey g, b) m /\ In b (map snd m) /\
            keyOfBucket b = bucketKey g /\
            incl (Group.addresses g) (Bucket.addresses b) /\
            In (originalZoneOf g) (Bucket.zones b).
Proof.
  intros WK [b [E [Hi Hz]]]. apply mapGet_In in E. exists b.
  split; [exact E|]. split; [apply in_map_iff; exists (bucketKey g, b); auto|].
  split; [|auto]. rewrite Forall_forall in WK. symmetry. exact (WK _ E).
Qed.

(** C7, as the code has it. The aggregation loop never throws and drops
    nothing: every group, one whose date or time is missing included, is
    merged into the bucket whose key string is built from the group's own
    fields, and the buckets hold the addresses of all the groups, each as
    often as the input has it. No skip is counted. *)
Theorem aggregate_drops_nothing (groups : list Group.t) :
  exists buckets,
    aggregate groups = Returned buckets /\
    (forall g, In g groups ->
       exists b, In b buckets /\ keyOfBucket b = bucketKey g /\
                 incl (Group.addresses g) (Bucket.addresses b) /\
                 In (originalZoneOf g) (Bucket.zones b)) /\
    Permutation (flat_map Group.addresses groups) (flat_map Bucket.addresses buckets).
Proof.
  exists (map snd (bucketFold [] groups)). split; [apply aggregate_returns|]. split.
  - intros g Hg.
    destruct (holdsGroup_bucket (bucketFold [] groups) g) as [b [_ H]].
    + apply bucketFold_wellKeyed. constructor.
    + now apply bucketFold_holds.
    + exists b. exact H.
  - symmetry. exact (bucketFold_addresses groups []).
Qed.

(** C7, as stated, fails: a group without date and a group without time
    are not excluded; each gets a bucket, keyed with "undefined" and
    "null". *)
Lemma missing_date_or_time_is_bucketed :
  isMissing Undefined = true /\ isMissing Null = true /\
  aggregate [ groupOf Undefined (Text "08:00") "Efford" [stopA];
              groupOf (Text "2025-12-24") Null "Efford" [stopB] ]
  = Returned
      [ {| Bucket.pickupDateISO := Undefined; Bucket.onOffDutyTime := Text "08:00";
           Bucket.clusterName := "Efford"; Bucket.zones := ["Efford"];
           Bucket.count := 1%N; Bucket.addresses := [stopA] |};
        {| Bucket.pickupDateISO := Text "2025-12-24"; Bucket.onOffDutyTime := Null;
           Bucket.clusterName := "Efford"; Bucket.zones := ["Efford"];
           Bucket.count := 1%N; Bucket.addresses := [stopB] |} ] /\
  bucketKey (groupOf Undefined (Text "08:00") "Efford" [stopA]) = "undefined__08:00__Efford" /\
  bucketKey (groupOf (Text "2025-12-24") Null "Efford" [stopB]) = "2025-12-24__null__Efford".
Proof. repeat split. Qed.

(** C8, as the code has it. When the dates and times of the groups are
    strings without underscore, as [YYYY-MM-DD] and [HH:mm] are: every
    group is merged into a bucket whose (date, time, cluster label) is the
    group's date, time and [getZoneClusterName] of its zone name; the
    (date, time, cluster label) of the buckets are pairwise distinct, so
    that bucket is the only one; and the buckets hold the addresses of all
    the groups, each as often as the input has it. *)
Theorem aggregate_buckets (groups : list Group.t) :
  Forall (fun g => plainKeyed g = true) groups ->
  exists buckets,
    aggregate groups = Returned buckets /\
    NoDup (map bucketTriple buckets) /\
    (forall g, In g groups ->
       exists b, In b buckets /\ bucketTriple b = groupTriple g /\
                 incl (Group.addresses g) (Bucket.addresses b)) /\
    Permutation (flat_map Group.addresses groups) (flat_map Bucket.addresses buckets).
Proof.
  intros Plain.
  exists (map snd (bucketFold [] groups)). split; [apply aggregate_returns|].
  assert (WK : Forall wellKeyed (bucketFold [] groups))
    by (apply bucketFold_wellKeyed; constructor).
  assert (PE : Forall plainEntry (bucketFold [] groups))
    by (apply bucketFold_plain; [exact Plain | constructor]).
  split; [|split].
  - assert (ND : NoDup (map fst (bucketFold [] groups)))
      by (apply bucketFold_NoDup; constructor).
    assert (E : map fst (bucketFold [] groups)
                = map (fun t => bucketKeyOf (fst (fst t)) (snd (fst t)) (snd t))
                    (map bucketTriple (map snd (bucketFold [] groups)))).
    { rewrite !map_map. apply map_ext_in. intros e He.
      rewrite Forall_forall in WK. exact (WK e He). }
    rewrite E in ND. exact (NoDup_map_inv _ _ ND).
  - intros g Hg.
    destruct (holdsGroup_bucket (bucketFold [] groups) g WK) as [b [Hb [Hin [K [Hi _]]]]].
    + now apply bucketFold_holds.
    + exists b. split; [exact Hin|]. split; [|exact Hi].
      rewrite Forall_forall in PE, Plain.
      destruct (PE _ Hb) as [Pd Pt]. simpl in Pd, Pt.
      specialize (Plain g Hg). apply andb_true_iff in Plain. destruct Plain as [Gd Gt].
      unfold keyOfBucket, bucketKey in K.
      destruct (bucketKeyOf_injective _ _ _ _ _ _ Pd Pt Gd Gt K) as [Ed [Et Ec]].
      unfold bucketTriple, groupTriple.
      rewrite Ed, Et, Ec, getZoneClusterName_originalZone. reflexivity.
  - symmetry. exact (bucketFold_addresses groups []).
Qed.

Lemma aggregate_buckets_witness :
  exists buckets,
    aggregate [ groupOf (Text "2025-12-24") (Text "08:00") "Mutley" [stopA];
                groupOf (Text "2025-12-24") (Text "08:00") "Lipson" [stopB];
                groupOf (Text "2025-12-24") (Text "08:00") "Efford" [stopC] ]
    = Returned buckets /\
    NoDup (map bucketTriple buckets) /\
    (forall g,
       In g [ groupOf (Text "2025-12-24") (Text "08:00") "Mutley" [stopA];
              groupOf (Text "2025-12-24") (Text "08:00") "Lipson" [stopB];
              groupOf (Text "2025-12-24") (Text "08:00") "Efford" [stopC] ] ->
       exists b, In b buckets /\ bucketTriple b = groupTriple g /\
                 incl (Group.addresses g) (Bucket.addresses b)) /\
    Permutation [stopA; stopB; stopC] (flat_map Bucket.addresses buckets).
Proof.
  apply (aggregate_buckets
           [ groupOf (Text "2025-12-24") (Text "08:00") "Mutley" [stopA];
             groupOf (Text "2025-12-24") (Text "08:00") "Lipson" [stopB];
             groupOf (Text "2025-12-24") (Text "08:00") "Efford" [stopC] ]).
  repeat constructor.
Defined.

(** C8, as stated, fails: two groups with different (date, time) whose key
    strings coincide end in one bucket, which carries the date and time of
    the first; no bucket has the key of the second. *)
Lemma colliding_keys_share_a_bucket :
  groupTriple (groupOf (Text "2025-12-24__08:00") (Text "09:00") "Efford" [stopB])
    <> groupTriple (groupOf (Text "2025-12-24") (Text "08:00__09:00") "Efford" [stopC]) /\
  aggregate [ groupOf (Text "2025-12-24__08:00") (Text "09:00") "Efford" [stopB];
              groupOf (Text "2025-12-24") (Text "08:00__09:00") "Efford" [stopC] ]
  = Returned
      [ {| Bucket.pickupDateISO := Text "2025-12-24__08:00";
           Bucket.onOffDutyTime := Text "09:00";
           Bucket.clusterName := "Efford"; Bucket.zones := ["Efford"];
           Bucket.count := 2%N; Bucket.addresses := [stopB; stopC] |} ].
Proof. split; [vm_compute; discriminate | reflexivity]. Qed.

(* ------------------------------------------------------------------ *)
(** ** Output assembly *)

(** C1, at an input where it fails. Of two groups, one on 2025-12-24 and
    one on 2026-01-01, the assembly lists the later date first: the sort
    compares the dates as rewritten by [toDDMMYY], "24-12-25" and
    "01-01-26", of which the second collates first. *)
Theorem shiftGroups_sorts_rewritten_dates
    (hav : jsval -> jsval -> jsval -> jsval -> number)
    (localeCompare : string -> string -> comparison) :
  localeCompare "01-01-26" "24-12-25" = Lt ->
  String.compare "2025-12-24" "2026-01-01" = Lt /\
  shiftGroups hav localeCompare "start"
    [ groupOf (Text "2025-12-24") (Text "08:00") "Efford" [stopA];
      groupOf (Text "2026-01-01") (Text "08:00") "Efford" [stopB] ]
  = Returned
      [ {| RouteGroup.pickupDateISO := "01-01-26";
           RouteGroup.onOffDutyTime := Text "08:00";
           RouteGroup.zoneName := "Efford"; RouteGroup.zones := ["Efford"];
           RouteGroup.count := 1%N; RouteGroup.addresses := [stopB] |};
        {| RouteGroup.pickupDateISO := "24-12-25";
           RouteGroup.onOffDutyTime := Text "08:00";
           RouteGroup.zoneName := "Efford"; RouteGroup.zones := ["Efford"];
           RouteGroup.count := 1%N; RouteGroup.addresses := [stopA] |} ].
Proof.
  intros H. split; [reflexivity|].
  unfold shiftGroups.
  assert (A : aggregate
                [ groupOf (Text "2025-12-24") (Text "08:00") "Efford" [stopA];
                  groupOf (Text "2026-01-01") (Text "08:00") "Efford" [stopB] ]
              = Returned
                  [ {| Bucket.pickupDateISO := Text "2025-12-24";
                       Bucket.onOffDutyTime := Text "08:00";
                       Bucket.clusterName := "Efford"; Bucket.zones := ["Efford"];
                       Bucket.count := 1%N; Bucket.addresses := [stopA] |};
                    {| Bucket.pickupDateISO := Text "2026-01-01";
                       Bucket.onOffDutyTime := Text "08:00";
                       Bucket.clusterName := "Efford"; Bucket.zones := ["Efford"];
                       Bucket.count := 1%N; Bucket.addresses := [stopB] |} ])
    by reflexivity.
  rewrite A. cbn [bind].
  match goal with
  | |- context [mapM ?f ?l] =>
      assert (F : mapM f l
                  = Returned
                      [ {| RouteGroup.pickupDateISO := "24-12-25";
                           RouteGroup.onOffDutyTime := Text "08:00";
                           RouteGroup.zoneName := "Efford"; RouteGroup.zones := ["Efford"];
                           RouteGroup.count := 1%N; RouteGroup.addresses := [stopA] |};
                        {| RouteGroup.pickupDateISO := "01-01-26";
                           RouteGroup.onOffDutyTime := Text "08:00";
                           RouteGroup.zoneName := "Efford"; RouteGroup.zones := ["Efford"];
                           RouteGroup.count := 1%N; RouteGroup.addresses := [stopB] |} ])
        by reflexivity;
      rewrite F
  end.
  cbn [bind]. unfold sortBy. cbn [fold_left bind insertSorted].
  unfold compareGroups. cbn [RouteGroup.pickupDateISO].
  change (String.eqb "01-01-26" "24-12-25") with false.
  cbn [negb bind]. rewrite H. reflexivity.
Qed.

Lemma shiftGroups_sorts_rewritten_dates_witness :
  String.compare "2025-12-24" "2026-01-01" = Lt /\
  exists first rest,
    shiftGroups taxicabDistance String.compare "start"
      [ groupOf (Text "2025-12-24") (Text "08:00") "Efford" [stopA];
        groupOf (Text "2026-01-01") (Text "08:00") "Efford" [stopB] ]
    = Returned (first :: rest) /\
    RouteGroup.pickupDateISO first = "01-01-26".
Proof.
  destruct (shiftGroups_sorts_rewritten_dates taxicabDistance String.compare eq_refl)
    as [Hiso Hout].
  split; [exact Hiso|]. eexists. eexists. split; [exact Hout | reflexivity].
Defined.

(* ================================================================== *)
(** * Further properties of the sequencer *)

Lemma scanWith_ungeocoded (dist : Address -> number) (beats : number -> number -> bool)
    (l : list Address) (i : nat) (st : nat * number) :
  (forall s, In s l -> hasCoords s = false) -> scanWith dist beats l i st = st.
Proof.
  revert i st. induction l as [|s r IH]; intros i st H; simpl; [reflexivity|].
  rewrite (H s (or_introl eq_refl)). simpl. apply IH. intros s' Hs'. apply H. now right.
Qed.

Lemma nearestWalk_ungeocoded (hav : jsval -> jsval -> jsval -> jsval -> number)
    (budget : nat) :
  forall (clat clng : jsval) (remaining ordered : list Address),
    List.length remaining <= budget ->
    (forall s, In s remaining -> hasCoords s = false) ->
    nearestWalk hav budget clat clng remaining ordered = Returned (ordered ++ remaining).
Proof.
  induction budget as [|budget IH]; intros clat clng remaining ordered Hlen Hno.
  - destruct remaining; [|simpl in Hlen; lia]. now rewrite app_nil_r.
  - destruct remaining as [|a r]; [now rewrite app_nil_r|].
    assert (Hb : bestIdx hav clat clng (a :: r) = 0).
    { unfold bestIdx. rewrite nearestScan_scanWith, scanWith_ungeocoded; auto. }
    rewrite (nearestWalk_turn hav budget clat clng (a :: r) ordered a)
      by (rewrite Hb; reflexivity).
    rewrite Hb. simpl firstn. simpl skipn. simpl app at 1.
    rewrite IH.
    + now rewrite <- app_assoc.
    + simpl in Hlen. lia.
    + intros s Hs. apply Hno. now right.
Qed.

Lemma startIdx_ungeocoded (hav : jsval -> jsval -> jsval -> jsval -> number)
    (stops : list Address) :
  (forall s, In s stops -> hasCoords s = false) -> startIdx hav stops = 0.
Proof.
  intros H. unfold startIdx. rewrite furthestScan_scanWith, scanWith_ungeocoded; auto.
Qed.

Lemma optimiseRoute_ungeocoded_unchanged_aux
    (hav : jsval -> jsval -> jsval -> jsval -> number)
    (stops : list Address) (direction : jsval) :
  (forall s, In s stops -> hasCoords s = false) ->
  optimiseRoute hav stops direction = Returned stops.
Proof.
  intros Hno.
  destruct (Nat.leb_spec (List.length stops) 1) as [L|G];
    [now apply optimiseRoute_short|].
  assert (Out : forall d, d <> JUndefined -> d <> JStr "inbound" ->
            optimiseRoute hav stops d = Returned stops).
  { intros d NU NI. rewrite (optimiseRoute_outbound hav stops d NU NI).
    now rewrite nearestWalk_ungeocoded. }
  assert (Inb : optimiseRoute hav stops (JStr "inbound") = Returned stops).
  { destruct stops as [|a r]; [simpl in G; lia|].
    pose proof (startIdx_ungeocoded hav (a :: r) Hno) as Hs.
    rewrite (optimiseRoute_inbound hav (a :: r) a G) by (rewrite Hs; reflexivity).
    rewrite Hs. simpl firstn. simpl skipn. simpl app at 1.
    rewrite nearestWalk_ungeocoded.
    - reflexivity.
    - simpl. lia.
    - intros s Hs'. apply Hno. now right. }
  destruct direction as [| |x|s].
  - rewrite optimiseRoute_default. exact Inb.
  - apply Out; discriminate.
  - apply Out; discriminate.
  - destruct (string_dec s "inbound") as [->|NI]; [exact Inb|].
    apply Out; [discriminate | congruence].
Qed.

(** X1. When no stop has both coordinates, [optimiseRoute] returns the
    stops in the order it received them, whatever the direction. *)
Theorem optimiseRoute_ungeocoded_unchanged
    (hav : jsval -> jsval -> jsval -> jsval -> number)
    (stops : list Address) (direction : jsval) :
  (forall s, In s stops -> hasCoords s = false) ->
  optimiseRoute hav stops direction = Returned stops.
Proof. exact (optimiseRoute_ungeocoded_unchanged_aux hav stops direction). Qed.

Lemma optimiseRoute_ungeocoded_unchanged_witness :
  optimiseRoute taxicabDistance [stopX; stopY; stopX] (JStr "inbound")
  = Returned [stopX; stopY; stopX].
Proof.
  apply (optimiseRoute_ungeocoded_unchanged taxicabDistance [stopX; stopY; stopX]).
  intros s Hs. simpl in Hs.
  repeat (destruct Hs as [<-|Hs]); try contradiction; reflexivity.
Defined.

Lemma remove_geocoded (l : list Address) (k : nat) (x : Address) :
  nth_error l k = Some x -> hasCoords x = true ->
  ungeocoded (firstn k l ++ skipn (S k) l) = ungeocoded l /\
  Permutation (geocoded l) (x :: geocoded (firstn k l ++ skipn (S k) l)).
Proof.
  revert k. induction l as [|a l IH]; intros [|k] Hn Hx; simpl in Hn; try discriminate.
  - injection Hn as ->. unfold ungeocoded, geocoded. simpl. rewrite Hx. simpl.
    split; reflexivity.
  - destruct (IH k Hn Hx) as [U G]. unfold ungeocoded, geocoded in *.
    change (firstn (S k) (a :: l) ++ skipn (S (S k)) (a :: l))
      with (a :: (firstn k l ++ skipn (S k) l)).
    cbn [filter]. destruct (hasCoords a); cbn [negb].
    + split; [exact U|]. rewrite perm_swap. now constructor.
    + split; [f_equal; exact U | exact G].
Qed.

Lemma geocoded_none (l : list Address) :
  geocoded l = [] -> forall s, In s l -> hasCoords s = false.
Proof.
  intros E s Hs. destruct (hasCoords s) eqn:Hc; [|reflexivity].
  assert (In s (geocoded l)) by (apply filter_In; auto). rewrite E in H. destruct H.
Qed.

Lemma ungeocoded_all (l : list Address) :
  (forall s, In s l -> hasCoords s = false) -> ungeocoded l = l.
Proof.
  induction l as [|a l IH]; intros H; [reflexivity|].
  unfold ungeocoded in *. simpl. rewrite (H a (or_introl eq_refl)). simpl.
  f_equal. apply IH. intros s Hs. apply H. now right.
Qed.

Section GeocodedFirst.

Variable hav : jsval -> jsval -> jsval -> jsval -> number.

(** With a geocoded stop among [remaining], each at a proper distance, the
    scan ends on a geocoded stop. *)
Lemma scan_picks_geocoded (dist : Address -> number) (beats : number -> number -> bool)
    (bound : number) (remaining : list Address) :
  geocoded remaining <> [] ->
  (forall s, In s (geocoded remaining) -> beats (dist s) bound = true) ->
  exists x, nth_error remaining (fst (scanWith dist beats remaining 0 (0, bound))) = Some x
         /\ hasCoords x = true.
Proof.
  intros NE Hd.
  destruct (scanWith_cases dist beats remaining 0 (0, bound)) as [[_ H]|[k [x [Hk [E Hx]]]]].
  - destruct (geocoded remaining) as [|a r] eqn:Eg; [contradiction|].
    pose proof (Hd a (or_introl eq_refl)) as Hb.
    assert (Ha : In a (geocoded remaining)) by (rewrite Eg; now left).
    apply filter_In in Ha. destruct Ha as [Hin Hc].
    specialize (H a Hin Hc). simpl in H. congruence.
  - exists x. rewrite E. simpl. auto.
Qed.

Lemma nearestWalk_geocoded_first (budget : nat) :
  forall (clat clng : jsval) (remaining ordered : list Address),
    List.length remaining <= budget ->
    (forall s, In s (geocoded remaining) -> properDistance (distanceFrom hav clat clng s)) ->
    (forall s s', In s (geocoded remaining) -> In s' (geocoded remaining) ->
       properDistance (distanceFrom hav (lat s) (lng s) s')) ->
    exists placed,
      nearestWalk hav budget clat clng remaining ordered
      = Returned (ordered ++ placed ++ ungeocoded remaining) /\
      Permutation (geocoded remaining) placed.
Proof.
  induction budget as [|budget IH]; intros clat clng remaining ordered Hlen Hd Hdd.
  - destruct remaining; [|simpl in Hlen; lia].
    exists []. split; [simpl; now rewrite app_nil_r | constructor].
  - destruct (geocoded remaining) as [|g0 gs] eqn:Eg.
    + exists []. split; [|constructor].
      pose proof (geocoded_none remaining Eg) as Hno.
      rewrite nearestWalk_ungeocoded by (auto; lia).
      now rewrite (ungeocoded_all remaining Hno).
    + rewrite <- Eg in *.
      assert (NE : geocoded remaining <> []) by (rewrite Eg; discriminate).
      destruct (scan_picks_geocoded (distanceFrom hav clat clng) num_ltb Infinity remaining NE)
        as [x [Hn Hx]].
      { intros s Hs. apply properDistance_lt_Infinity. now apply Hd. }
      rewrite <- nearestScan_scanWith in Hn. fold (bestIdx hav clat clng remaining) in Hn.
      rewrite (nearestWalk_turn hav budget clat clng remaining ordered x Hn).
      destruct (remove_geocoded remaining _ x Hn Hx) as [U G].
      pose proof (remove_length _ _ _ Hn) as Hl.
      assert (Hxin : In x (geocoded remaining))
        by (apply filter_In; split; [eapply nth_error_In; eauto | exact Hx]).
      assert (Sub : forall s,
                 In s (geocoded (firstn (bestIdx hav clat clng remaining) remaining
                                   ++ skipn (S (bestIdx hav clat clng remaining)) remaining)) ->
                 In s (geocoded remaining)).
      { intros s Hs. apply (Permutation_in s (Permutation_sym G)). now right. }
      destruct (IH (lat x) (lng x)
                  (firstn (bestIdx hav clat clng remaining) remaining
                     ++ skipn (S (bestIdx hav clat clng remaining)) remaining)
                  (ordered ++ [x])) as [placed [E P]].
      * lia.
      * intros s Hs. apply Hdd; [exact Hxin | now apply Sub].
      * intros s s' Hs Hs'. apply Hdd; now apply Sub.
      * exists (x :: placed). split.
        -- rewrite E, U, <- app_assoc. reflexivity.
        -- rewrite G. now constructor.
Qed.

Lemma properDistances_geocoded_hub (stops : list Address) (s : Address) :
  properDistances hav (geocoded stops) -> In s (geocoded stops) ->
  properDistance (hubDistance hav s) /\
  properDistance (distanceFrom hav (JNum DH_LAT) (JNum DH_LNG) s).
Proof. apply properDistances_hub. Qed.

(** X2. When the distances between the Hub and the geocoded stops are
    finite non-negative numbers, [optimiseRoute] places all the geocoded
    stops first and, after them, the stops without coordinates in the
    order the input has them. *)
Theorem optimiseRoute_geocoded_first (stops : list Address) (direction : jsval) :
  properDistances hav (geocoded stops) ->
  exists placed,
    optimiseRoute hav stops direction = Returned (placed ++ ungeocoded stops) /\
    Permutation (geocoded stops) placed.
Proof.
  intros Hp.
  destruct (geocoded stops) as [|g0 gs] eqn:Eg.
  { exists []. split; [|constructor].
    pose proof (geocoded_none stops Eg) as Hno.
    rewrite (ungeocoded_all stops Hno).
    now apply optimiseRoute_ungeocoded_unchanged_aux. }
  rewrite <- Eg in *.
  assert (NE : geocoded stops <> []) by (rewrite Eg; discriminate).
  assert (Out : forall d, d <> JUndefined -> d <> JStr "inbound" ->
            exists placed,
              optimiseRoute hav stops d = Returned (placed ++ ungeocoded stops) /\
              Permutation (geocoded stops) placed).
  { intros d NU NI. rewrite (optimiseRoute_outbound hav stops d NU NI).
    destruct (nearestWalk_geocoded_first (List.length stops) (JNum DH_LAT) (JNum DH_LNG)
                stops []) as [placed [E P]].
    - lia.
    - intros s Hs. now apply (properDistances_geocoded_hub stops).
    - intros s s' Hs Hs'. now apply (properDistances_between hav (geocoded stops)).
    - exists placed. split; [exact E | exact P]. }
  assert (Inb : exists placed,
            optimiseRoute hav stops (JStr "inbound") = Returned (placed ++ ungeocoded stops) /\
            Permutation (geocoded stops) placed).
  { destruct (Nat.leb_spec (List.length stops) 1) as [L|G].
    - rewrite (optimiseRoute_short hav stops _ L).
      destruct stops as [|a [|b r]]; [discriminate Eg | | simpl in L; lia].
      unfold geocoded, ungeocoded in *. simpl in *.
      destruct (hasCoords a); [|discriminate Eg].
      exists [a]. split; reflexivity.
    - destruct (scan_picks_geocoded (hubDistance hav) num_gtb (Finite (- 1)) stops NE)
        as [x [Hn Hx]].
      { intros s Hs. apply properDistance_gt_minus_one.
        now apply (properDistances_geocoded_hub stops). }
      rewrite <- furthestScan_scanWith in Hn. fold (startIdx hav stops) in Hn.
      rewrite (optimiseRoute_inbound hav stops x G Hn).
      destruct (remove_geocoded stops _ x Hn Hx) as [U Gp].
      pose proof (remove_length _ _ _ Hn) as Hl.
      assert (Hxin : In x (geocoded stops))
        by (apply filter_In; split; [eapply nth_error_In; eauto | exact Hx]).
      assert (Sub : forall s,
                 In s (geocoded (firstn (startIdx hav stops) stops
                                   ++ skipn (S (startIdx hav stops)) stops)) ->
                 In s (geocoded stops)).
      { intros s Hs. apply (Permutation_in s (Permutation_sym Gp)). now right. }
      destruct (nearestWalk_geocoded_first (List.length stops - 1) (lat x) (lng x)
                  (firstn (startIdx hav stops) stops ++ skipn (S (startIdx hav stops)) stops)
                  [x]) as [placed [E P]].
      + lia.
      + intros s Hs. apply (properDistances_between hav (geocoded stops)); auto.
      + intros s s' Hs Hs'. apply (properDistances_between hav (geocoded stops)); auto.
      + exists (x :: placed). split.
        * rewrite E, U. reflexivity.
        * rewrite Gp. now constructor. }
  destruct direction as [| |x|s].
  - rewrite optimiseRoute_default. exact Inb.
  - apply Out; discriminate.
  - apply Out; discriminate.
  - destruct (string_dec s "inbound") as [->|NI]; [exact Inb|].
    apply Out; [discriminate | congruence].
Qed.

End GeocodedFirst.

Lemma optimiseRoute_geocoded_first_witness :
  exists placed,
    optimiseRoute taxicabDistance [stopX; stopA; stopY; stopB; stopC] (JStr "outbound")
    = Returned (placed ++ [stopX; stopY]) /\
    Permutation [stopA; stopB; stopC] placed.
Proof.
  apply (optimiseRoute_geocoded_first taxicabDistance
           [stopX; stopA; stopY; stopB; stopC] (JStr "outbound")).
  exact properDistances_example.
Defined.

(* ------------------------------------------------------------------ *)
(** ** The order depends on the coordinates only *)

Section Relabel.

Variable hav : jsval -> jsval -> jsval -> jsval -> number.
Variable f : Address -> Address.
Hypothesis f_lat : forall s, lat (f s) = lat s.
Hypothesis f_lng : forall s, lng (f s) = lng s.

Lemma hasCoords_relabel (s : Address) : hasCoords (f s) = hasCoords s.
Proof. unfold hasCoords. now rewrite f_lat, f_lng. Qed.

Lemma furthestScan_relabel (l : list Address) (i : nat) (st : nat * number) :
  furthestScan hav (map f l) i st = furthestScan hav l i st.
Proof.
  revert i st. induction l as [|s r IH]; intros i st; simpl; [reflexivity|].
  now rewrite hasCoords_relabel, f_lat, f_lng, IH.
Qed.

Lemma nearestScan_relabel (clat clng : jsval) (l : list Address) (i : nat)
    (st : nat * number) :
  nearestScan hav clat clng (map f l) i st = nearestScan hav clat clng l i st.
Proof.
  revert i st. induction l as [|s r IH]; intros i st; simpl; [reflexivity|].
  now rewrite hasCoords_relabel, f_lat, f_lng, IH.
Qed.

Lemma remove_map (l : list Address) (i : nat) :
  firstn i (map f l) ++ skipn (S i) (map f l) = map f (firstn i l ++ skipn (S i) l).
Proof. now rewrite firstn_map, skipn_map, map_app. Qed.

Lemma nearestWalk_relabel (budget : nat) :
  forall (clat clng : jsval) (remaining ordered : list Address),
    nearestWalk hav budget clat clng (map f remaining) (map f ordered)
    = outcomeMap (map f) (nearestWalk hav budget clat clng remaining ordered).
Proof.
  induction budget as [|budget IH]; intros clat clng remaining ordered.
  - destruct remaining; reflexivity.
  - destruct remaining as [|a r] eqn:Er; [reflexivity|]. rewrite <- Er.
    assert (NE : remaining <> []) by (rewrite Er; discriminate).
    destruct (bestIdx_selects hav clat clng remaining NE) as [next Hn].
    assert (Hb : bestIdx hav clat clng (map f remaining) = bestIdx hav clat clng remaining)
      by (unfold bestIdx; now rewrite nearestScan_relabel).
    rewrite (nearestWalk_turn hav budget clat clng remaining ordered next Hn).
    rewrite (nearestWalk_turn hav budget clat clng (map f remaining) (map f ordered) (f next))
      by (rewrite Hb, nth_error_map, Hn; reflexivity).
    rewrite Hb, remove_map, f_lat, f_lng.
    change (map f ordered ++ [f next]) with (map f ordered ++ map f [next]).
    rewrite <- map_app. apply IH.
Qed.

(** X3. The order [optimiseRoute] gives depends on the coordinates only:
    rewriting the stops by a function that keeps [lat] and [lng] (adding a
    pickup-point label, say) and sequencing gives the same as sequencing and
    then rewriting. *)
Theorem optimiseRoute_relabel (stops : list Address) (direction : jsval) :
  optimiseRoute hav (map f stops) direction
  = outcomeMap (map f) (optimiseRoute hav stops direction).
Proof.
  assert (Out : forall d, d <> JUndefined -> d <> JStr "inbound" ->
            optimiseRoute hav (map f stops) d
            = outcomeMap (map f) (optimiseRoute hav stops d)).
  { intros d NU NI. rewrite !(optimiseRoute_outbound hav _ d NU NI).
    rewrite length_map. exact (nearestWalk_relabel _ _ _ stops []). }
  assert (Inb : optimiseRoute hav (map f stops) (JStr "inbound")
                = outcomeMap (map f) (optimiseRoute hav stops (JStr "inbound"))).
  { destruct (Nat.leb_spec (List.length stops) 1) as [L|G].
    - rewrite !optimiseRoute_short; [reflexivity | exact L | now rewrite length_map].
    - assert (NE : stops <> []) by (destruct stops; [simpl in G; lia | discriminate]).
      destruct (startIdx_selects hav stops NE) as [current Hc].
      assert (Hs : startIdx hav (map f stops) = startIdx hav stops)
        by (unfold startIdx; now rewrite furthestScan_relabel).
      rewrite (optimiseRoute_inbound hav stops current G Hc).
      rewrite (optimiseRoute_inbound hav (map f stops) (f current))
        by (rewrite ?length_map, ?Hs, ?nth_error_map, ?Hc; auto).
      rewrite Hs, remove_map, f_lat, f_lng, length_map.
      exact (nearestWalk_relabel _ _ _ _ [current]). }
  destruct direction as [| |x|s].
  - rewrite !optimiseRoute_default. exact Inb.
  - apply Out; discriminate.
  - apply Out; discriminate.
  - destruct (string_dec s "inbound") as [->|NI]; [exact Inb|].
    apply Out; [discriminate | congruence].
Qed.

End Relabel.

Lemma optimiseRoute_relabel_witness :
  optimiseRoute taxicabDistance
    (map (withPickupPoint "Bus stop") [stopA; stopX; stopB; stopC]) (JStr "inbound")
  = outcomeMap (map (withPickupPoint "Bus stop"))
      (optimiseRoute taxicabDistance [stopA; stopX; stopB; stopC] (JStr "inbound")).
Proof.
  apply (optimiseRoute_relabel taxicabDistance (withPickupPoint "Bus stop")
           (fun s => eq_refl) (fun s => eq_refl)
           [stopA; stopX; stopB; stopC] (JStr "inbound")).
Defined.

(* ================================================================== *)
(** * Further properties of the aggregation *)

Lemma In_mapGet {V : Type} (k : string) (v : V) (m : list (string * V)) :
  NoDup (map fst m) -> In (k, v) m -> mapGet k m = Some v.
Proof.
  induction m as [|[k' v'] r IH]; simpl; intros ND Hin; [destruct Hin|].
  inversion ND as [|? ? Hnot ND']; subst.
  destruct Hin as [E|Hin].
  - injection E as -> ->. now rewrite String.eqb_refl.
  - destruct (String.eqb_spec k' k) as [->|NE].
    + exfalso. apply Hnot. apply in_map_iff. exists (k, v). auto.
    + now apply IH.
Qed.

(** What a bucket becomes once the groups [gs] are merged into it. *)
Lemma addGroups_fields (gs : list Group.t) :
  forall b,
    Bucket.pickupDateISO (fold_left addGroup gs b) = Bucket.pickupDateISO b /\
    Bucket.onOffDutyTime (fold_left addGroup gs b) = Bucket.onOffDutyTime b /\
    Bucket.clusterName (fold_left addGroup gs b) = Bucket.clusterName b /\
    Bucket.addresses (fold_left addGroup gs b)
      = Bucket.addresses b ++ flat_map Group.addresses gs /\
    Bucket.count (fold_left addGroup gs b) = (Bucket.count b + sumCounts gs)%N.
Proof.
  induction gs as [|g r IH]; intros b; simpl.
  - rewrite app_nil_r, N.add_0_r. auto.
  - destruct (IH (addGroup b g)) as [D [T [C [A N]]]]. simpl in *.
    rewrite D, T, C, A, N, <- app_assoc. repeat split. lia.
Qed.

Lemma addGroups_zones (gs : list Group.t) :
  forall b,
    NoDup (Bucket.zones b) ->
    NoDup (Bucket.zones (fold_left addGroup gs b)) /\
    forall z, In z (Bucket.zones (fold_left addGroup gs b)) <->
              In z (Bucket.zones b) \/ exists g, In g gs /\ originalZoneOf g = z.
Proof.
  induction gs as [|g r IH]; intros b ND; simpl.
  - split; [exact ND|]. intros z. split; [auto | intros [H|[g [[] _]]]; exact H].
  - assert (ND' : NoDup (Bucket.zones (addGroup b g))).
    { simpl. unfold setAdd. destruct (existsb (String.eqb (originalZoneOf g)) (Bucket.zones b)) eqn:E.
      - exact ND.
      - apply NoDup_app; [exact ND | constructor; [tauto | constructor] |].
        intros a Ha [<-|[]].
        assert (existsb (String.eqb (originalZoneOf g)) (Bucket.zones b) = true).
        { apply existsb_exists. exists (originalZoneOf g). split; [exact Ha | apply String.eqb_refl]. }
        congruence. }
    destruct (IH (addGroup b g) ND') as [N Z]. split; [exact N|].
    intros z. rewrite Z. simpl. split.
    + intros [H|[g' [Hg' E]]].
      * unfold setAdd in H.
        destruct (existsb (String.eqb (originalZoneOf g)) (Bucket.zones b)).
        -- now left.
        -- apply in_app_or in H. destruct H as [H|[<-|[]]]; [now left|].
           right. exists g. auto.
      * right. exists g'. auto.
    + intros [H|[g' [[<-|Hg'] E]]].
      * left. now apply setAdd_keeps.
      * left. rewrite <- E. apply setAdd_In.
      * right. exists g'. auto.
Qed.

(** The bucket under [k] once the loop has run over [groups] from the map
    [m]: what [m] had under [k], or a new bucket made from the first group
    under [k], with every group under [k] merged in, in input order. *)
Lemma bucketFold_get (k : string) (groups : list Group.t) :
  forall m,
    mapGet k (bucketFold m groups)
    = match mapGet k m, groupsUnder k groups with
      | Some b, gs => Some (fold_left addGroup gs b)
      | None, [] => None
      | None, g0 :: gs => Some (fold_left addGroup (g0 :: gs) (newBucket g0))
      end.
Proof.
  induction groups as [|g r IH]; intros m.
  - simpl. destruct (mapGet k m); reflexivity.
  - change (bucketFold m (g :: r))
      with (bucketFold (mapSet (bucketKey g) (addGroup (bucketFor m g) g) m) r).
    rewrite IH. unfold groupsUnder. simpl filter.
    destruct (String.eqb_spec (bucketKey g) k) as [E|NE].
    + rewrite <- E, mapGet_mapSet_same. unfold bucketFor.
      destruct (mapGet (bucketKey g) m); reflexivity.
    + rewrite mapGet_mapSet_other by congruence. reflexivity.
Qed.

Lemma bucketFold_bucket (groups : list Group.t) (k : string) (b : Bucket.t) :
  In (k, b) (bucketFold [] groups) ->
  exists g0 gs, groupsUnder k groups = g0 :: gs /\
                b = fold_left addGroup (g0 :: gs) (newBucket g0).
Proof.
  intros Hin.
  assert (ND : NoDup (map fst (bucketFold [] groups)))
    by (apply bucketFold_NoDup; constructor).
  pose proof (In_mapGet k b _ ND Hin) as E.
  rewrite bucketFold_get in E. simpl in E.
  destruct (groupsUnder k groups) as [|g0 gs]; [discriminate|].
  injection E as <-. eauto.
Qed.

Lemma groupsUnder_key (k : string) (groups : list Group.t) (g : Group.t) :
  In g (groupsUnder k groups) <-> In g groups /\ bucketKey g = k.
Proof.
  unfold groupsUnder. rewrite filter_In. now rewrite String.eqb_eq.
Qed.

(** X4. Each bucket of the aggregation stems from the groups that have
    its key string, and from them alone: there is at least one; the bucket
    has the date, time and cluster label of the first of them, their
    addresses concatenated in input order, and the sum of their counts. *)
Theorem aggregate_bucket_contents (groups : list Group.t) :
  exists buckets,
    aggregate groups = Returned buckets /\
    forall b, In b buckets ->
      exists g0 gs,
        groupsUnder (keyOfBucket b) groups = g0 :: gs /\
        Bucket.pickupDateISO b = Group.pickupDateISO g0 /\
        Bucket.onOffDutyTime b = Group.onOffDutyTime g0 /\
        Bucket.clusterName b = getZoneClusterName (originalZoneOf g0) /\
        Bucket.addresses b = flat_map Group.addresses (g0 :: gs) /\
        Bucket.count b = sumCounts (g0 :: gs).
Proof.
  exists (map snd (bucketFold [] groups)). split; [apply aggregate_returns|].
  intros b Hb. apply in_map_iff in Hb. destruct Hb as [[k b'] [E Hin]].
  simpl in E. subst b'.
  assert (WK : Forall wellKeyed (bucketFold [] groups))
    by (apply bucketFold_wellKeyed; constructor).
  rewrite Forall_forall in WK. pose proof (WK _ Hin) as Hk. unfold wellKeyed in Hk.
  simpl in Hk. rewrite <- Hk.
  destruct (bucketFold_bucket groups k b Hin) as [g0 [gs [Eg Eb]]].
  exists g0, gs. split; [exact Eg|].
  destruct (addGroups_fields (g0 :: gs) (newBucket g0)) as [D [T [C [A N]]]].
  rewrite <- Eb in D, T, C, A, N. simpl in D, T, C, A, N.
  rewrite D, T, C, A, N. repeat split.
Qed.

(** X5. In each bucket the zone names are pairwise distinct, and they are
    the original zone names ([zoneName], or "(unknown)" for an empty one)
    of the groups that have the bucket's key string. *)
Theorem aggregate_bucket_zones (groups : list Group.t) :
  exists buckets,
    aggregate groups = Returned buckets /\
    forall b, In b buckets ->
      NoDup (Bucket.zones b) /\
      forall z, In z (Bucket.zones b) <->
                exists g, In g groups /\ bucketKey g = keyOfBucket b /\ originalZoneOf g = z.
Proof.
  exists (map snd (bucketFold [] groups)). split; [apply aggregate_returns|].
  intros b Hb. apply in_map_iff in Hb. destruct Hb as [[k b'] [E Hin]].
  simpl in E. subst b'.
  assert (WK : Forall wellKeyed (bucketFold [] groups))
    by (apply bucketFold_wellKeyed; constructor).
  rewrite Forall_forall in WK. pose proof (WK _ Hin) as Hk. unfold wellKeyed in Hk.
  simpl in Hk. rewrite <- Hk.
  destruct (bucketFold_bucket groups k b Hin) as [g0 [gs [Eg Eb]]].
  destruct (addGroups_zones (g0 :: gs) (newBucket g0)) as [ND Z]; [constructor|].
  rewrite <- Eb in ND, Z. split; [exact ND|].
  intros z. rewrite Z. split.
  - intros [H|[g [Hg Ez]]]; [destruct H|]. exists g.
    rewrite <- Eg in Hg. apply groupsUnder_key in Hg. tauto.
  - intros [g [Hg [Hk' Ez]]]. right. exists g. split; [|exact Ez].
    rewrite <- Eg. apply groupsUnder_key. auto.
Qed.

Lemma mapSet_totalCount (k : string) (v : Bucket.t) (m : list (string * Bucket.t)) (extra : N) :
  Bucket.count v
  = (match mapGet k m with Some b => Bucket.count b | None => 0 end + extra)%N ->
  totalCount (map snd (mapSet k v m)) = (totalCount (map snd m) + extra)%N.
Proof.
  induction m as [|[k' v'] r IH]; simpl; intros Hv.
  - rewrite Hv. lia.
  - destruct (String.eqb k' k); simpl.
    + rewrite Hv. lia.
    + rewrite IH by exact Hv. lia.
Qed.

Lemma bucketFold_totalCount (groups : list Group.t) :
  forall m,
    totalCount (map snd (bucketFold m groups))
    = (totalCount (map snd m) + sumCounts groups)%N.
Proof.
  induction groups as [|g r IH]; intros m; simpl.
  - lia.
  - change (fold_left _ r ?m') with (bucketFold m' r). rewrite IH.
    rewrite (mapSet_totalCount _ _ _ (Group.count g)).
    + lia.
    + unfold bucketFor. destruct (mapGet (bucketKey g) m); reflexivity.
Qed.

Lemma mapSet_length {V : Type} (k : string) (v : V) (m : list (string * V)) :
  List.length (mapSet k v m) <= S (List.length m).
Proof.
  induction m as [|[k' v'] m IH]; simpl; [lia|].
  destruct (String.eqb k' k); simpl; lia.
Qed.

Lemma bucketFold_length (groups : list Group.t) :
  forall m, List.length (bucketFold m groups) <= List.length m + List.length groups.
Proof.
  induction groups as [|g r IH]; intros m; simpl; [lia|].
  change (fold_left _ r ?m') with (bucketFold m' r).
  specialize (IH (mapSet (bucketKey g) (addGroup (bucketFor m g) g) m)).
  pose proof (mapSet_length (bucketKey g) (addGroup (bucketFor m g) g) m).
  lia.
Qed.

(** X6. The counts of the buckets add up to the counts of the groups, and
    there are at most as many buckets as groups: the aggregation neither
    loses nor doubles a booking. *)
Theorem aggregate_total_count (groups : list Group.t) :
  exists buckets,
    aggregate groups = Returned buckets /\
    totalCount buckets = sumCounts groups /\
    List.length buckets <= List.length groups.
Proof.
  exists (map snd (bucketFold [] groups)). split; [apply aggregate_returns|]. split.
  - rewrite bucketFold_totalCount. simpl. lia.
  - rewrite length_map. exact (bucketFold_length groups []).
Qed.

(* ================================================================== *)
(** * Further properties of the output assembly *)

Lemma String_ltb_asym (a b : string) : String.ltb a b = true -> String.ltb b a = false.
Proof.
  unfold String.ltb. rewrite (String.compare_antisym a b).
  destruct (String.compare b a); simpl; congruence.
Qed.

Lemma insertDefault_Permutation (x : string) (sorted : list string) :
  Permutation (x :: sorted) (insertDefault x sorted).
Proof.
  induction sorted as [|e r IH]; simpl; [reflexivity|].
  destruct (String.ltb x e); [reflexivity|].
  rewrite perm_swap. now constructor.
Qed.

Lemma insertDefault_HdRel (x e : string) (r : list string) :
  String.ltb x e = false ->
  HdRel (fun a b => String.ltb b a = false) e r ->
  HdRel (fun a b => String.ltb b a = false) e (insertDefault x r).
Proof.
  intros Hx H. destruct r as [|e' r']; simpl.
  - now constructor.
  - destruct (String.ltb x e'); constructor; [exact Hx|]. now inversion H.
Qed.

Lemma insertDefault_Sorted (x : string) (sorted : list string) :
  Sorted (fun a b => String.ltb b a = false) sorted ->
  Sorted (fun a b => String.ltb b a = false) (insertDefault x sorted).
Proof.
  induction sorted as [|e r IH]; simpl; intros H.
  - repeat constructor.
  - inversion H as [|? ? Hr Hd]; subst.
    destruct (String.ltb x e) eqn:E.
    + constructor; [exact H|]. constructor. now apply String_ltb_asym.
    + constructor; [now apply IH | now apply insertDefault_HdRel].
Qed.

Lemma sortDefault_sorted (l : list string) :
  Permutation l (sortDefault l) /\
  Sorted (fun a b => String.ltb b a = false) (sortDefault l).
Proof.
  unfold sortDefault.
  assert (G : forall acc,
            Sorted (fun a b => String.ltb b a = false) acc ->
            Permutation (acc ++ l) (fold_left (fun acc x => insertDefault x acc) l acc) /\
            Sorted (fun a b => String.ltb b a = false)
              (fold_left (fun acc x => insertDefault x acc) l acc)).
  { induction l as [|x r IH]; intros acc Hs; simpl.
    - rewrite app_nil_r. split; [reflexivity | exact Hs].
    - destruct (IH (insertDefault x acc) (insertDefault_Sorted x acc Hs)) as [P S].
      split; [|exact S]. rewrite <- P.
      rewrite <- (insertDefault_Permutation x acc).
      symmetry. apply Permutation_middle. }
  destruct (G [] (Sorted_nil _)) as [P S]. auto.
Qed.

(** X7. [formatBucket] always returns. The route group keeps the bucket's
    cluster label, time and count; its zones are the bucket's zones in
    ascending code-unit order; its addresses are the bucket's addresses,
    resequenced. *)
Theorem formatBucket_keeps (hav : jsval -> jsval -> jsval -> jsval -> number)
    (direction : jsval) (b : Bucket.t) :
  exists r,
    formatBucket hav direction b = Returned r /\
    RouteGroup.zoneName r = Bucket.clusterName b /\
    RouteGroup.onOffDutyTime r = Bucket.onOffDutyTime b /\
    RouteGroup.count r = Bucket.count b /\
    Permutation (Bucket.zones b) (RouteGroup.zones r) /\
    Sorted (fun a b => String.ltb b a = false) (RouteGroup.zones r) /\
    Permutation (Bucket.addresses b) (RouteGroup.addresses r).
Proof.
  unfold formatBucket.
  destruct (optimiseRoute_returns hav (Bucket.addresses b) direction) as [out [E P]].
  rewrite E. simpl. eexists. split; [reflexivity|]. simpl.
  destruct (sortDefault_sorted (Bucket.zones b)) as [PZ SZ]. auto 10.
Qed.

Section Ordered.

Variable hav : jsval -> jsval -> jsval -> jsval -> number.
Variable localeCompare : string -> string -> comparison.
Hypothesis localeCompare_asym :
  forall a b, localeCompare a b = Lt -> localeCompare b a <> Lt.

Lemma compareGroups_returns (a b : RouteGroup.t) :
  timed a -> exists c, compareGroups localeCompare a b = Returned c.
Proof.
  unfold timed, compareGroups. intros Ha.
  destruct (negb (String.eqb _ _)); [eauto|].
  destruct (jstext_neqb _ _); [|eauto].
  destruct (RouteGroup.onOffDutyTime a); try discriminate. eauto.
Qed.

Lemma jstext_neqb_sym (a b : jstext) : jstext_neqb a b = jstext_neqb b a.
Proof.
  destruct a, b; simpl; try reflexivity. now rewrite String.eqb_sym.
Qed.

Lemma compareGroups_asym (a b : RouteGroup.t) :
  compareGroups localeCompare a b = Returned Lt ->
  compareGroups localeCompare b a <> Returned Lt.
Proof.
  unfold compareGroups.
  rewrite (String.eqb_sym (RouteGroup.pickupDateISO b)), (jstext_neqb_sym (RouteGroup.onOffDutyTime b)).
  destruct (negb (String.eqb _ _)).
  - intros [= H] [= H']. exact (localeCompare_asym _ _ H H').
  - destruct (jstext_neqb _ _).
    + destruct (RouteGroup.onOffDutyTime a) as [| |s]; try discriminate.
      destruct (RouteGroup.onOffDutyTime b) as [| |t]; try discriminate. simpl.
      intros [= H] [= H']. exact (localeCompare_asym _ _ H H').
    + intros [= H] [= H']. exact (localeCompare_asym _ _ H H').
Qed.

Lemma insertSorted_HdRel (x e : RouteGroup.t) (r r' : list RouteGroup.t) :
  mayFollow localeCompare e x ->
  HdRel (mayFollow localeCompare) e r ->
  insertSorted (compareGroups localeCompare) x r = Returned r' ->
  HdRel (mayFollow localeCompare) e r'.
Proof.
  intros Hx H E. destruct r as [|e' r0]; simpl in E.
  - injection E as <-. now constructor.
  - destruct (compareGroups localeCompare x e') as [c| |]; simpl in E; try discriminate.
    destruct c.
    + destruct (insertSorted _ x r0); simpl in E; try discriminate.
      injection E as <-. constructor. now inversion H.
    + injection E as <-. now constructor.
    + destruct (insertSorted _ x r0); simpl in E; try discriminate.
      injection E as <-. constructor. now inversion H.
Qed.

Lemma insertSorted_ordered (x : RouteGroup.t) (sorted : list RouteGroup.t) :
  timed x -> Sorted (mayFollow localeCompare) sorted ->
  exists l, insertSorted (compareGroups localeCompare) x sorted = Returned l /\
            Permutation (x :: sorted) l /\
            Sorted (mayFollow localeCompare) l.
Proof.
  intros Hx. induction sorted as [|e r IH]; simpl; intros Hs.
  - exists [x]. repeat constructor.
  - inversion Hs as [|? ? Hr Hd]; subst.
    destruct (compareGroups_returns x e Hx) as [c Ec]. rewrite Ec. simpl.
    destruct (IH Hr) as [l [El [Pl Sl]]].
    assert (Keep : c <> Lt ->
              exists l0, (r' <- insertSorted (compareGroups localeCompare) x r ;;
                          Returned (e :: r')) = Returned l0 /\
                         Permutation (x :: e :: r) l0 /\
                         Sorted (mayFollow localeCompare) l0).
    { intros Hc. exists (e :: l). rewrite El. simpl. split; [reflexivity|]. split.
      - rewrite perm_swap. now constructor.
      - constructor; [exact Sl|].
        apply (insertSorted_HdRel x e r l); auto.
        unfold mayFollow. rewrite Ec. congruence. }
    destruct c.
    + apply Keep. discriminate.
    + exists (x :: e :: r). split; [reflexivity|]. split; [reflexivity|].
      constructor; [exact Hs|]. constructor. unfold mayFollow.
      now apply compareGroups_asym.
    + apply Keep. discriminate.
Qed.

Lemma sortBy_ordered (l : list RouteGroup.t) :
  Forall timed l ->
  exists out, sortBy (compareGroups localeCompare) l = Returned out /\
              Permutation l out /\
              Sorted (mayFollow localeCompare) out.
Proof.
  unfold sortBy. intros Hl.
  assert (G : forall acc,
            Sorted (mayFollow localeCompare) acc ->
            exists out,
              fold_left (fun acc x => sorted <- acc ;;
                           insertSorted (compareGroups localeCompare) x sorted)
                l (Returned acc) = Returned out /\
              Permutation (acc ++ l) out /\
              Sorted (mayFollow localeCompare) out).
  { induction Hl as [|x r Hx Hr IH]; intros acc Hs; simpl.
    - exists acc. rewrite app_nil_r. auto.
    - destruct (insertSorted_ordered x acc Hx Hs) as [l' [E [P S]]]. rewrite E.
      destruct (IH l' S) as [out [Eo [Po So]]]. exists out. split; [exact Eo|].
      split; [|exact So]. rewrite <- Po, <- P. symmetry. apply Permutation_middle. }
  destruct (G [] (Sorted_nil _)) as [out H]. exists out. exact H.
Qed.

Lemma mapM_formatBucket (direction : jsval) (buckets : list Bucket.t) :
  Forall (fun b => isMissing (Bucket.onOffDutyTime b) = false) buckets ->
  exists formatted,
    mapM (formatBucket hav direction) buckets = Returned formatted /\
    List.length formatted = List.length buckets /\
    Forall timed formatted.
Proof.
  induction 1 as [|b r Hb Hr IH]; simpl.
  - exists []. repeat constructor.
  - destruct IH as [fs [E [L T]]]. rewrite E.
    unfold formatBucket at 1.
    destruct (optimiseRoute_returns hav (Bucket.addresses b) direction) as [out [Eo _]].
    rewrite Eo. simpl. eexists. split; [reflexivity|]. split; [simpl; now rewrite L|].
    constructor; [exact Hb | exact T].
Qed.

Lemma bucketFold_timed (groups : list Group.t) :
  (forall g, In g groups -> isMissing (Group.onOffDutyTime g) = false) ->
  Forall (fun b => isMissing (Bucket.onOffDutyTime b) = false)
    (map snd (bucketFold [] groups)).
Proof.
  intros H. apply Forall_forall. intros b Hb.
  apply in_map_iff in Hb. destruct Hb as [[k b'] [E Hin]]. simpl in E. subst b'.
  destruct (bucketFold_bucket groups k b Hin) as [g0 [gs [Eg Eb]]].
  destruct (addGroups_fields (g0 :: gs) (newBucket g0)) as [_ [T _]].
  rewrite <- Eb in T. rewrite T. simpl. apply H.
  assert (Hg : In g0 (groupsUnder k groups)) by (rewrite Eg; now left).
  apply groupsUnder_key in Hg. tauto.
Qed.

Lemma shiftGroups_ordered_aux (type : string) (groups : list Group.t) :
  (forall g, In g groups -> isMissing (Group.onOffDutyTime g) = false) ->
  exists buckets formatted out,
    aggregate groups = Returned buckets /\
    mapM (formatBucket hav (directionOf type)) buckets = Returned formatted /\
    shiftGroups hav localeCompare type groups = Returned out /\
    Permutation formatted out /\
    Sorted (mayFollow localeCompare) out.
Proof.
  intros Ht.
  destruct (mapM_formatBucket (directionOf type) _ (bucketFold_timed groups Ht))
    as [formatted [E [_ T]]].
  destruct (sortBy_ordered formatted T) as [out [Es [P S]]].
  exists (map snd (bucketFold [] groups)), formatted, out.
  split; [apply aggregate_returns|]. split; [exact E|]. split; [|auto].
  unfold shiftGroups. rewrite aggregate_returns. simpl.
  fold (directionOf type). rewrite E. simpl. exact Es.
Qed.

End Ordered.

(** X8. When every group has its time and [localeCompare] never puts two
    strings each before the other, the handler does not throw; the
    response has exactly the route groups made from the buckets, and no
    route group in it is followed by one the comparator (rewritten date,
    then time, then cluster label) puts before it. *)
Theorem shiftGroups_ordered (hav : jsval -> jsval -> jsval -> jsval -> number)
    (localeCompare : string -> string -> comparison)
    (type : string) (groups : list Group.t) :
  (forall a b, localeCompare a b = Lt -> localeCompare b a <> Lt) ->
  (forall g, In g groups -> isMissing (Group.onOffDutyTime g) = false) ->
  exists buckets formatted out,
    aggregate groups = Returned buckets /\
    mapM (formatBucket hav (directionOf type)) buckets = Returned formatted /\
    shiftGroups hav localeCompare type groups = Returned out /\
    Permutation formatted out /\
    Sorted (mayFollow localeCompare) out.
Proof.
  intros Hasym Ht. exact (shiftGroups_ordered_aux hav localeCompare Hasym type groups Ht).
Qed.

Lemma shiftGroups_ordered_witness :
  exists buckets formatted out,
    aggregate [ groupOf (Text "2025-12-25") (Text "19:30") "Efford" [stopA];
                groupOf (Text "2025-12-24") (Text "07:00") "Mutley" [stopB; stopC] ]
    = Returned buckets /\
    mapM (formatBucket taxicabDistance (directionOf "finish")) buckets = Returned formatted /\
    shiftGroups taxicabDistance String.compare "finish"
      [ groupOf (Text "2025-12-25") (Text "19:30") "Efford" [stopA];
        groupOf (Text "2025-12-24") (Text "07:00") "Mutley" [stopB; stopC] ]
    = Returned out /\
    Permutation formatted out /\
    Sorted (mayFollow String.compare) out.
Proof.
  apply (shiftGroups_ordered taxicabDistance String.compare "finish").
  - intros a b H H'. rewrite String.compare_antisym, H' in H. discriminate.
  - intros g Hg. simpl in Hg.
    repeat (destruct Hg as [<-|Hg]); try contradiction; reflexivity.
Defined.

(* ================================================================== *)
(** * Dates for display *)

Lemma toDDMMYY_not_ISO (s : string) : isISODate s = false -> toDDMMYY (Text s) = s.
Proof.
  intros H. unfold toDDMMYY.
  do 10 (destruct s as [|? s]; [reflexivity|]).
  destruct s; [|reflexivity].
  unfold isISODate in H. now rewrite H.
Qed.

(** X9. The result of [toDDMMYY] is never of the shape [dddd-dd-dd], and
    [toDDMMYY] leaves its own results unchanged: rewriting a date twice is
    rewriting it once. *)
Theorem toDDMMYY_idempotent (v : jstext) :
  isISODate (toDDMMYY v) = false /\ toDDMMYY (Text (toDDMMYY v)) = toDDMMYY v.
Proof.
  assert (H : isISODate (toDDMMYY v) = false).
  { destruct v as [| |s]; try reflexivity.
    destruct (isISODate s) eqn:E; [|now rewrite toDDMMYY_not_ISO].
    unfold toDDMMYY. unfold isISODate in E.
    do 10 (destruct s as [|? s]; [discriminate E|]).
    destruct s; [|discriminate E].
    rewrite E. reflexivity. }
  split; [exact H | now apply toDDMMYY_not_ISO].
Qed.

(* ================================================================== *)
(** * White space *)

Lemma trimEnd_idempotent (s : string) : trimEnd (trimEnd s) = trimEnd s.
Proof.
  induction s as [|c r IH]; simpl; [reflexivity|].
  destruct (trimEnd r) as [|c' r'] eqn:E.
  - destruct (isWhiteSpace c) eqn:W; simpl; [reflexivity | now rewrite W].
  - simpl. simpl in IH. rewrite IH. reflexivity.
Qed.

Lemma trimStart_head (s : string) :
  trimStart s = EmptyString \/
  exists c r, trimStart s = String c r /\ isWhiteSpace c = false.
Proof.
  induction s as [|c r IH]; simpl; [now left|].
  destruct (isWhiteSpace c) eqn:W; [exact IH | right; eauto].
Qed.

Lemma trimEnd_head (c : ascii) (r : string) :
  isWhiteSpace c = false -> exists r', trimEnd (String c r) = String c r'.
Proof.
  intros W. simpl. destruct (trimEnd r); [rewrite W|]; eauto.
Qed.

Lemma trim_idempotent (s : string) : trim (trim s) = trim s.
Proof.
  unfold trim. destruct (trimStart_head s) as [E|[c [r [E W]]]]; rewrite E.
  - reflexivity.
  - destruct (trimEnd_head c r W) as [r' E']. rewrite E'.
    simpl trimStart. rewrite W. rewrite <- E'. apply trimEnd_idempotent.
Qed.

Lemma trim_nonwhite (s : string) :
  Forall (fun c => isWhiteSpace c = false) (list_ascii_of_string s) -> trim s = s.
Proof.
  intros H. unfold trim.
  assert (S : trimStart s = s).
  { destruct s as [|c r]; [reflexivity|]. simpl in *. inversion H; subst.
    now rewrite H2. }
  rewrite S. clear S. induction s as [|c r IH]; [reflexivity|].
  simpl in *. inversion H; subst. rewrite (IH H3).
  destruct r; [now rewrite H2 | reflexivity].
Qed.

Lemma digit_nonwhite (c : ascii) : isDigit c = true -> isWhiteSpace c = false.
Proof. destruct c as [[] [] [] [] [] [] [] []]; vm_compute; congruence. Qed.

Lemma allDigits_Forall (s : string) :
  allDigits s = true <-> Forall (fun c => isDigit c = true) (list_ascii_of_string s).
Proof.
  induction s as [|c r IH]; simpl.
  - split; [constructor | reflexivity].
  - rewrite andb_true_iff, IH. split.
    + intros [H1 H2]. now constructor.
    + intros H. inversion H; subst. auto.
Qed.

Lemma list_ascii_of_string_app (a b : string) :
  list_ascii_of_string (a ++ b) = list_ascii_of_string a ++ list_ascii_of_string b.
Proof. induction a as [|c r IH]; simpl; [reflexivity | now rewrite IH]. Qed.

(* ================================================================== *)
(** * Times of the bulk import *)

Lemma valueOfDigits_decimalOf (n : nat) : valueOfDigits (decimalOf n) = n.
Proof.
  unfold valueOfDigits, decimalOf. rewrite DecimalString.NilEmpty.usu.
  apply DecimalNat.Unsigned.of_to.
Qed.

Lemma valueOfDigits_zeros (k : nat) (s : string) :
  valueOfDigits (zeros k ++ s) = valueOfDigits s.
Proof.
  induction k as [|k IH]; [reflexivity|].
  unfold valueOfDigits in *. simpl.
  destruct (DecimalString.NilEmpty.uint_of_string (zeros k ++ s)) as [d|];
    simpl; exact IH.
Qed.

Lemma valueOfDigits_padStart0 (len n : nat) :
  valueOfDigits (padStart0 len (decimalOf n)) = n.
Proof. unfold padStart0. now rewrite valueOfDigits_zeros, valueOfDigits_decimalOf. Qed.

Lemma spanDigits_app (h rest : string) :
  allDigits h = true ->
  (rest = EmptyString \/ exists c r, rest = String c r /\ isDigit c = false) ->
  spanDigits (h ++ rest) = (h, rest).
Proof.
  intros Hh Hr. induction h as [|a h IH]; simpl in *.
  - destruct Hr as [->|[c [r [-> Hc]]]]; simpl; [reflexivity | now rewrite Hc].
  - apply andb_true_iff in Hh. destruct Hh as [Ha Hh]. rewrite Ha, (IH Hh). reflexivity.
Qed.

Lemma wrap_mod (x m : nat) : m <> 0 -> ((x mod m) + m) mod m = x mod m.
Proof.
  intros Hm. replace (x mod m + m) with (x mod m + 1 * m) by lia.
  rewrite Nat.Div0.mod_add. apply Nat.Div0.mod_mod.
Qed.

Section Times.

Variable roundDayMinutes : number -> option Z.

Lemma matchTime_colon (h m : string) :
  allDigits h = true -> lengthWithin 1 2 h = true ->
  allDigits m = true -> lengthWithin 1 2 m = true ->
  matchTime (h ++ ":" ++ m) = Some (h, Some m).
Proof.
  intros Hh Lh Hm Lm. unfold matchTime.
  rewrite (spanDigits_app h (":" ++ m) Hh) by (right; exists ":"%char, m; auto).
  rewrite Lh. simpl.
  replace m with (m ++ EmptyString)%string at 1
    by (clear; induction m; simpl; congruence).
  rewrite (spanDigits_app m EmptyString Hm) by now left.
  rewrite Lm. reflexivity.
Qed.

Lemma matchTime_hour (h : string) :
  allDigits h = true -> lengthWithin 1 2 h = true ->
  matchTime h = Some (h, None).
Proof.
  intros Hh Lh. unfold matchTime.
  replace h with (h ++ EmptyString)%string at 1
    by (clear; induction h; simpl; congruence).
  rewrite (spanDigits_app h EmptyString Hh) by now left.
  rewrite Lh. reflexivity.
Qed.

Lemma digits_nonwhite (s : string) :
  allDigits s = true ->
  Forall (fun c => isWhiteSpace c = false) (list_ascii_of_string s).
Proof.
  intros H. apply allDigits_Forall in H.
  eapply Forall_impl; [|exact H]. intros c. apply digit_nonwhite.
Qed.

Lemma nonempty_of_length (s : string) : lengthWithin 1 2 s = true -> isEmpty s = false.
Proof. destruct s; [discriminate | reflexivity]. Qed.

(** X10. A text cell made of one or two hour digits, alone or followed by
    a colon and one or two minute digits, becomes [HH:MM] with the hour
    taken modulo 24 and the minute modulo 60: "24" is 00:00, and in "8:75"
    the minutes wrap to 15 without carrying into the hour. *)
Theorem toTimeFromCell_text (h m : string) :
  allDigits h = true -> lengthWithin 1 2 h = true ->
  allDigits m = true -> lengthWithin 1 2 m = true ->
  toTimeFromCell roundDayMinutes (JStr (h ++ ":" ++ m))
    = formatTime (valueOfDigits h mod 24) (valueOfDigits m mod 60) /\
  toTimeFromCell roundDayMinutes (JStr h)
    = formatTime (valueOfDigits h mod 24) 0.
Proof.
  intros Hh Lh Hm Lm. split.
  - unfold toTimeFromCell.
    assert (T : trim (h ++ ":" ++ m) = (h ++ ":" ++ m)%string).
    { apply trim_nonwhite. rewrite list_ascii_of_string_app. apply Forall_app. split.
      - now apply digits_nonwhite.
      - simpl. constructor; [reflexivity | now apply digits_nonwhite]. }
    rewrite T.
    assert (NE : isEmpty (h ++ ":" ++ m) = false)
      by (destruct h; [discriminate Lh | reflexivity]).
    rewrite NE, (matchTime_colon h m Hh Lh Hm Lm).
    rewrite !wrap_mod by discriminate. reflexivity.
  - unfold toTimeFromCell.
    rewrite (trim_nonwhite h (digits_nonwhite h Hh)).
    rewrite (nonempty_of_length h Lh), (matchTime_hour h Hh Lh).
    rewrite wrap_mod by discriminate. reflexivity.
Qed.

(** The text of a time of day is a fixed point. *)
Lemma formatTime_fixed (hh mm : nat) :
  hh < 24 -> mm < 60 ->
  toTimeFromCell roundDayMinutes (JStr (formatTime hh mm)) = formatTime hh mm.
Proof.
  intros Hh Hm.
  assert (All : forallb (fun h => forallb (fun m =>
                  String.eqb (toTimeFromCell roundDayMinutes (JStr (formatTime h m)))
                             (formatTime h m)) (seq 0 60)) (seq 0 24) = true)
    by (vm_compute; reflexivity).
  rewrite forallb_forall in All.
  assert (Hin : In hh (seq 0 24)) by (apply in_seq; lia).
  specialize (All hh Hin). rewrite forallb_forall in All.
  assert (Hin' : In mm (seq 0 60)) by (apply in_seq; lia).
  specialize (All mm Hin'). now apply String.eqb_eq in All.
Qed.

Lemma day_minutes (t : Z) :
  Z.rem (Z.rem t 1440 + 1440) 1440 = (t mod 1440)%Z.
Proof.
  pose proof (Z.rem_bound_abs t 1440) as B.
  pose proof (Z.quot_rem' t 1440) as Q.
  rewrite Z.rem_mod_nonneg by lia.
  replace (Z.rem t 1440 + 1440)%Z with (t + (1 - Z.quot t 1440) * 1440)%Z by lia.
  apply Z.mod_add. lia.
Qed.

Lemma toTimeFromCell_number_aux (x : number) (t : Z) :
  roundDayMinutes x = Some t ->
  (toTimeFromCell roundDayMinutes (JNum x)
   = formatTime (Z.to_nat (Z.div (Z.modulo t 1440) 60))
       (Z.to_nat (Z.modulo (Z.modulo t 1440) 60))) /\
  (Z.to_nat (Z.div (Z.modulo t 1440) 60) < 24) /\
  (Z.to_nat (Z.modulo (Z.modulo t 1440) 60) < 60).
Proof.
  intros E. pose proof (Z.mod_pos_bound t 1440 eq_refl) as B.
  split; [|split].
  - unfold toTimeFromCell. rewrite E. cbv zeta. rewrite day_minutes.
    rewrite (Z.rem_mod_nonneg (t mod 1440) 60) by lia. reflexivity.
  - assert ((t mod 1440) / 60 < 24)%Z by (apply Z.div_lt_upper_bound; lia).
    pose proof (Z.div_pos (t mod 1440) 60). lia.
  - pose proof (Z.mod_pos_bound (t mod 1440) 60 eq_refl). lia.
Qed.

(** X12. [toTimeFromCell] leaves its own results unchanged, whatever the
    cell was: importing an imported time changes nothing. *)
Theorem toTimeFromCell_idempotent (v : jsval) :
  toTimeFromCell roundDayMinutes (JStr (toTimeFromCell roundDayMinutes v))
  = toTimeFromCell roundDayMinutes v.
Proof.
  destruct v as [| |x|s]; try reflexivity.
  - destruct (roundDayMinutes x) as [t|] eqn:E.
    + destruct (toTimeFromCell_number_aux x t E) as [-> [Hh Hm]].
      now apply formatTime_fixed.
    + assert (R : toTimeFromCell roundDayMinutes (JNum x) = "NaN:NaN")
        by (unfold toTimeFromCell; now rewrite E).
      rewrite R. reflexivity.
  - destruct (isEmpty s) eqn:Es.
    { assert (R : toTimeFromCell roundDayMinutes (JStr s) = EmptyString)
        by (unfold toTimeFromCell; now rewrite Es).
      rewrite R. reflexivity. }
    destruct (isEmpty (trim s)) eqn:Et.
    { assert (R : toTimeFromCell roundDayMinutes (JStr s) = EmptyString)
        by (unfold toTimeFromCell; now rewrite Es, Et).
      rewrite R. reflexivity. }
    destruct (matchTime (trim s)) as [[h m]|] eqn:Em.
    + assert (R : toTimeFromCell roundDayMinutes (JStr s)
                  = formatTime (valueOfDigits h mod 24)
                      (match m with Some m => valueOfDigits m | None => 0 end mod 60)).
      { unfold toTimeFromCell. rewrite Es, Et, Em. rewrite !wrap_mod by discriminate.
        reflexivity. }
      rewrite R. apply formatTime_fixed; apply Nat.mod_upper_bound; discriminate.
    + assert (R : toTimeFromCell roundDayMinutes (JStr s) = trim s)
        by (unfold toTimeFromCell; now rewrite Es, Et, Em).
      rewrite R. unfold toTimeFromCell. rewrite trim_idempotent, Et, Em. reflexivity.
Qed.

End Times.

Lemma toTimeFromCell_text_witness :
  toTimeFromCell (fun _ => None) (JStr "8:75") = "08:15" /\
  toTimeFromCell (fun _ => None) (JStr "8") = "08:00".
Proof.
  exact (toTimeFromCell_text (fun _ => None) "8" "75" eq_refl eq_refl eq_refl eq_refl).
Defined.

(** X11. A numeric cell, a fraction of a day, whose rounded count of
    minutes [t] is finite becomes [HH:MM] for the minute [t mod 1440] of
    the day, the mathematical remainder: fractions below 0 and from 1 on
    wrap around the day. *)
Theorem toTimeFromCell_number (roundDayMinutes : number -> option Z) (x : number) (t : Z) :
  roundDayMinutes x = Some t ->
  (toTimeFromCell roundDayMinutes (JNum x)
   = formatTime (Z.to_nat (Z.div (Z.modulo t 1440) 60))
       (Z.to_nat (Z.modulo (Z.modulo t 1440) 60))) /\
  (Z.to_nat (Z.div (Z.modulo t 1440) 60) < 24) /\
  (Z.to_nat (Z.modulo (Z.modulo t 1440) 60) < 60).
Proof. exact (toTimeFromCell_number_aux roundDayMinutes x t). Qed.

Lemma toTimeFromCell_number_witness :
  toTimeFromCell (fun _ => Some (- 30)%Z) (JNum (Finite (- 1 # 48))) = "23:30".
Proof.
  destruct (toTimeFromCell_number (fun _ => Some (- 30)%Z) (Finite (- 1 # 48)) (- 30) eq_refl)
    as [E _].
  exact E.
Defined.

(* ================================================================== *)
(** * Dates of the bulk import *)

Section Dates.

Variable excelSerialDateToISO : number -> string.
Variable stringToNumber : string -> number.
Variable numberToString : number -> string.

Lemma padStart0_long (len : nat) (s : string) :
  len <= String.length s -> padStart0 len s = s.
Proof.
  intros H. unfold padStart0. replace (len - String.length s) with 0 by lia. reflexivity.
Qed.

Lemma separator_not_digit (c : ascii) : isDateSeparator c = true -> isDigit c = false.
Proof.
  unfold isDateSeparator. intros H. apply orb_true_iff in H.
  destruct H as [H|H]; apply Ascii.eqb_eq in H; subst; reflexivity.
Qed.

Lemma separator_nonwhite (c : ascii) : isDateSeparator c = true -> isWhiteSpace c = false.
Proof.
  unfold isDateSeparator. intros H. apply orb_true_iff in H.
  destruct H as [H|H]; apply Ascii.eqb_eq in H; subst; reflexivity.
Qed.

Lemma append_empty (s : string) : (s ++ EmptyString)%string = s.
Proof. induction s; simpl; congruence. Qed.

Lemma matchDMY_parts (d mo y : string) (c1 c2 : ascii) :
  allDigits d = true -> lengthWithin 1 2 d = true ->
  allDigits mo = true -> lengthWithin 1 2 mo = true ->
  allDigits y = true -> lengthWithin 2 4 y = true ->
  isDateSeparator c1 = true -> isDateSeparator c2 = true ->
  matchDMY (d ++ String c1 (mo ++ String c2 y)) = Some (d, mo, y).
Proof.
  intros Hd Ld Hm Lm Hy Ly H1 H2. unfold matchDMY.
  rewrite (spanDigits_app d _ Hd)
    by (right; eexists; eexists; split; [reflexivity | now apply separator_not_digit]).
  rewrite Ld, H1.
  rewrite (spanDigits_app mo _ Hm)
    by (right; eexists; eexists; split; [reflexivity | now apply separator_not_digit]).
  rewrite Lm, H2.
  rewrite <- (append_empty y) at 1.
  rewrite (spanDigits_app y EmptyString Hy) by now left.
  rewrite Ly. reflexivity.
Qed.

(** A text that starts with one or two digits and a separator is not of
    the shape [dddd-dd-dd]. *)
Lemma short_day_not_ISO (d rest : string) (c : ascii) :
  lengthWithin 1 2 d = true -> isDigit c = false ->
  isISODate (d ++ String c rest) = false.
Proof.
  intros Ld Hc. destruct d as [|a [|b [|? ?]]]; try discriminate Ld; simpl append.
  - destruct (isISODate (String a (String c rest))) eqn:E; [|reflexivity].
    unfold isISODate in E. do 8 (destruct rest as [|? rest]; [discriminate E|]).
    destruct rest; [|discriminate E]. simpl in E. rewrite Hc in E.
    rewrite !andb_false_r in E. simpl in E. destruct (isDigit a); discriminate E.
  - destruct (isISODate (String a (String b (String c rest)))) eqn:E; [|reflexivity].
    unfold isISODate in E. do 7 (destruct rest as [|? rest]; [discriminate E|]).
    destruct rest; [|discriminate E]. simpl in E. rewrite Hc in E.
    rewrite !andb_false_r in E. simpl in E.
    destruct (isDigit a), (isDigit b); discriminate E.
Qed.

Lemma allDigits_zeros (k : nat) (s : string) :
  allDigits s = true -> allDigits (zeros k ++ s) = true.
Proof. intros H. induction k; simpl; auto. Qed.

Lemma length_zeros_app (k : nat) (s : string) :
  String.length (zeros k ++ s) = k + String.length s.
Proof. induction k; simpl; auto. Qed.

Lemma padStart0_digits (len : nat) (s : string) :
  allDigits s = true -> String.length s <= len ->
  allDigits (padStart0 len s) = true /\ String.length (padStart0 len s) = len.
Proof.
  intros H L. unfold padStart0. split; [now apply allDigits_zeros|].
  rewrite length_zeros_app. lia.
Qed.

Lemma isISODate_parts (y m d : string) :
  allDigits y = true -> String.length y = 4 ->
  allDigits m = true -> String.length m = 2 ->
  allDigits d = true -> String.length d = 2 ->
  isISODate (y ++ "-" ++ m ++ "-" ++ d) = true.
Proof.
  intros Hy Ly Hm Lm Hd Ld.
  destruct y as [|y1 [|y2 [|y3 [|y4 [|? ?]]]]]; try discriminate Ly.
  destruct m as [|m1 [|m2 [|? ?]]]; try discriminate Lm.
  destruct d as [|d1 [|d2 [|? ?]]]; try discriminate Ld.
  simpl in *.
  repeat match goal with
         | H : _ && _ = true |- _ => apply andb_true_iff in H; destruct H
         end.
  repeat match goal with
         | H : isDigit ?c = true |- _ => rewrite H; clear H
         end.
  reflexivity.
Qed.

Lemma lengthWithin_bounds (lo hi : nat) (s : string) :
  lengthWithin lo hi s = true -> lo <= String.length s <= hi.
Proof.
  unfold lengthWithin. intros H. apply andb_true_iff in H. destruct H as [A B].
  apply Nat.leb_le in A, B. lia.
Qed.

Lemma toISODateFromCell_dmy_aux (d mo y : string) (c1 c2 : ascii) :
  allDigits d = true -> lengthWithin 1 2 d = true ->
  allDigits mo = true -> lengthWithin 1 2 mo = true ->
  allDigits y = true -> lengthWithin 2 4 y = true ->
  isDateSeparator c1 = true -> isDateSeparator c2 = true ->
  stringToNumber (d ++ String c1 (mo ++ String c2 y)) = NaN ->
  toISODateFromCell excelSerialDateToISO stringToNumber numberToString
    (JStr (d ++ String c1 (mo ++ String c2 y)))
  = (padStart0 4 (if (String.length y =? 2)%nat then "20" ++ y else y)
       ++ "-" ++ padStart0 2 mo ++ "-" ++ padStart0 2 d)%string /\
  isISODate
    (toISODateFromCell excelSerialDateToISO stringToNumber numberToString
       (JStr (d ++ String c1 (mo ++ String c2 y)))) = true.
Proof.
  intros Hd Ld Hm Lm Hy Ly H1 H2 Hn.
  assert (E : toISODateFromCell excelSerialDateToISO stringToNumber numberToString
                (JStr (d ++ String c1 (mo ++ String c2 y)))
              = (padStart0 4 (if (String.length y =? 2)%nat then "20" ++ y else y)
                   ++ "-" ++ padStart0 2 mo ++ "-" ++ padStart0 2 d)%string).
  { unfold toISODateFromCell.
    assert (NE : isEmpty (d ++ String c1 (mo ++ String c2 y)) = false)
      by (destruct d; [discriminate Ld | reflexivity]).
    assert (T : trim (d ++ String c1 (mo ++ String c2 y))
                = (d ++ String c1 (mo ++ String c2 y))%string).
    { apply trim_nonwhite. rewrite list_ascii_of_string_app. apply Forall_app.
      split; [now apply digits_nonwhite|]. simpl.
      constructor; [now apply separator_nonwhite|].
      rewrite list_ascii_of_string_app. apply Forall_app.
      split; [now apply digits_nonwhite|]. simpl.
      constructor; [now apply separator_nonwhite | now apply digits_nonwhite]. }
    rewrite NE, T. unfold isoDateFromText.
    rewrite NE, (short_day_not_ISO d _ c1 Ld (separator_not_digit c1 H1)), Hn.
    cbn [num_gtb num_ltb andb].
    rewrite (matchDMY_parts d mo y c1 c2); auto. }
  split; [exact E|]. rewrite E.
  pose proof (lengthWithin_bounds _ _ _ Ld). pose proof (lengthWithin_bounds _ _ _ Lm).
  pose proof (lengthWithin_bounds _ _ _ Ly).
  destruct (padStart0_digits 2 d Hd) as [Dd Dl]; [lia|].
  destruct (padStart0_digits 2 mo Hm) as [Md Ml]; [lia|].
  assert (Yd : allDigits (if (String.length y =? 2)%nat then "20" ++ y else y)%string = true
               /\ String.length (if (String.length y =? 2)%nat then "20" ++ y else y)%string <= 4).
  { destruct (Nat.eqb_spec (String.length y) 2) as [L2|L2].
    - split; [simpl; exact Hy | simpl; lia].
    - split; [exact Hy | lia]. }
  destruct Yd as [Yd Yl].
  destruct (padStart0_digits 4 _ Yd Yl) as [Pd Pl].
  now apply isISODate_parts.
Qed.

End Dates.

(** X13. A text cell in day, month, year form (one or two digits, [/] or
    [-], one or two digits, [/] or [-], two to four digits), which [Number]
    reads as NaN, becomes a date of the shape [dddd-dd-dd]: year, month
    and day padded with zeros, a two-digit year placed in 2000 to 2099.
    The digits are not checked against the calendar. *)
Theorem toISODateFromCell_dmy
    (excelSerialDateToISO : number -> string) (stringToNumber : string -> number)
    (numberToString : number -> string) (d mo y : string) (c1 c2 : ascii) :
  allDigits d = true -> lengthWithin 1 2 d = true ->
  allDigits mo = true -> lengthWithin 1 2 mo = true ->
  allDigits y = true -> lengthWithin 2 4 y = true ->
  isDateSeparator c1 = true -> isDateSeparator c2 = true ->
  stringToNumber (d ++ String c1 (mo ++ String c2 y))%string = NaN ->
  toISODateFromCell excelSerialDateToISO stringToNumber numberToString
    (JStr (d ++ String c1 (mo ++ String c2 y)))
  = (padStart0 4 (if (String.length y =? 2)%nat then "20" ++ y else y)
       ++ "-" ++ padStart0 2 mo ++ "-" ++ padStart0 2 d)%string /\
  isISODate
    (toISODateFromCell excelSerialDateToISO stringToNumber numberToString
       (JStr (d ++ String c1 (mo ++ String c2 y)))) = true.
Proof.
  exact (toISODateFromCell_dmy_aux excelSerialDateToISO stringToNumber numberToString
           d mo y c1 c2).
Qed.

Lemma toISODateFromCell_dmy_witness :
  toISODateFromCell (fun _ => EmptyString) digitsToNumber (fun _ => EmptyString)
    (JStr "1/2/25") = "2025-02-01" /\
  isISODate
    (toISODateFromCell (fun _ => EmptyString) digitsToNumber (fun _ => EmptyString)
       (JStr "1/2/25")) = true.
Proof.
  exact (toISODateFromCell_dmy (fun _ => EmptyString) digitsToNumber (fun _ => EmptyString)
           "1" "2" "25" "/" "/" eq_refl eq_refl eq_refl eq_refl eq_refl eq_refl
           eq_refl eq_refl eq_refl).
Defined.

(** X14. Export then import. A date of the shape [dddd-dd-dd] written by
    [toDDMMYY] (the CSV export) and read back by [toISODateFromCell] (the
    bulk import) comes back with its century replaced by 20: it is the same
    date exactly when its year is in 2000 to 2099. [Number] reads the
    exported text as NaN. *)
Theorem export_import_date
    (excelSerialDateToISO : number -> string) (stringToNumber : string -> number)
    (numberToString : number -> string) (iso : string) :
  isISODate iso = true ->
  stringToNumber (toDDMMYY (Text iso)) = NaN ->
  toISODateFromCell excelSerialDateToISO stringToNumber numberToString
    (JStr (toDDMMYY (Text iso)))
  = String "2" (String "0" (slice 2 iso)) /\
  (toISODateFromCell excelSerialDateToISO stringToNumber numberToString
     (JStr (toDDMMYY (Text iso))) = iso
   <-> exists rest, iso = String "2" (String "0" rest)).
Proof.
  intros Hiso Hn.
  assert (E : toISODateFromCell excelSerialDateToISO stringToNumber numberToString
                (JStr (toDDMMYY (Text iso)))
              = String "2" (String "0" (slice 2 iso))).
  { unfold isISODate in Hiso.
    do 10 (destruct iso as [|? iso]; [discriminate Hiso|]).
    destruct iso; [|discriminate Hiso].
    unfold toDDMMYY in *. rewrite Hiso in *.
    apply andb_true_iff in Hiso. destruct Hiso as [Hiso H2].
    apply andb_true_iff in Hiso. destruct Hiso as [Hd H1].
    apply Ascii.eqb_eq in H1, H2. subst.
    simpl in Hd.
    repeat match goal with
           | H : _ && _ = true |- _ => apply andb_true_iff in H; destruct H
           end.
    match goal with
    | |- context [JStr (String ?d1 (String ?d2 (String "-" (String ?m1 (String ?m2
                     (String "-" (String ?y3 (String ?y4 EmptyString))))))))] =>
        destruct (toISODateFromCell_dmy_aux excelSerialDateToISO stringToNumber
                    numberToString
                    (String d1 (String d2 EmptyString))
                    (String m1 (String m2 EmptyString))
                    (String y3 (String y4 EmptyString)) "-" "-") as [R _];
          simpl; rewrite ?andb_true_r;
          try reflexivity; try assumption;
          try (apply andb_true_iff; split; assumption)
    end. }
  split; [exact E|]. rewrite E. split.
  - intros H. exists (slice 2 iso). now rewrite H.
  - intros [rest ->]. reflexivity.
Qed.

Lemma export_import_date_witness :
  toISODateFromCell (fun _ => EmptyString) digitsToNumber (fun _ => EmptyString)
    (JStr (toDDMMYY (Text "1999-12-31"))) = "2099-12-31".
Proof.
  destruct (export_import_date (fun _ => EmptyString) digitsToNumber (fun _ => EmptyString)
              "1999-12-31" eq_refl eq_refl) as [E _].
  exact E.
Defined.

(* ================================================================== *)
(** * Phone numbers *)

Lemma removeChars_twice (drop : ascii -> bool) (s : string) :
  removeChars drop (removeChars drop s) = removeChars drop s.
Proof.
  induction s as [|c r IH]; simpl; [reflexivity|].
  destruct (drop c) eqn:E; simpl; [exact IH | now rewrite E, IH].
Qed.

Lemma removeChars_comm (a b : ascii -> bool) (s : string) :
  removeChars a (removeChars b s) = removeChars b (removeChars a s).
Proof.
  induction s as [|c r IH]; simpl; [reflexivity|].
  destruct (a c) eqn:Ea, (b c) eqn:Eb; simpl; rewrite ?Ea, ?Eb, IH; reflexivity.
Qed.

Lemma strippedPhone_idempotent (s : string) :
  strippedPhone (strippedPhone s) = strippedPhone s.
Proof.
  unfold strippedPhone.
  rewrite (removeChars_comm isWhiteSpace isBracketOrHyphen (removeChars isWhiteSpace s)).
  now rewrite !removeChars_twice.
Qed.

Lemma removeChars_keep (drop : ascii -> bool) (s : string) :
  Forall (fun c => drop c = false) (list_ascii_of_string s) -> removeChars drop s = s.
Proof.
  induction s as [|c r IH]; simpl; intros H; [reflexivity|].
  inversion H; subst. now rewrite H2, IH.
Qed.

Lemma digit_not_bracket (c : ascii) : isDigit c = true -> isBracketOrHyphen c = false.
Proof. destruct c as [[] [] [] [] [] [] [] []]; vm_compute; congruence. Qed.

Lemma strippedPhone_digits (s : string) : allDigits s = true -> strippedPhone s = s.
Proof.
  intros H. unfold strippedPhone.
  rewrite (removeChars_keep isWhiteSpace s) by now apply digits_nonwhite.
  apply removeChars_keep. apply allDigits_Forall in H.
  eapply Forall_impl; [|exact H]. intros c. apply digit_not_bracket.
Qed.

Lemma afterPrefix_app (prefix p rest : string) :
  afterPrefix prefix p = Some rest -> p = (prefix ++ rest)%string.
Proof.
  revert p. induction prefix as [|c r IH]; simpl; intros p H.
  - now injection H as ->.
  - destruct p as [|d q]; [discriminate|].
    destruct (Ascii.eqb_spec c d) as [->|]; [|discriminate].
    now rewrite (IH q H).
Qed.

Lemma prefixThenDigits_shape (prefix : string) (n : nat) (p : string) :
  prefixThenDigits prefix n p = true ->
  exists d, p = (prefix ++ d)%string /\ String.length d = n /\ allDigits d = true.
Proof.
  unfold prefixThenDigits. destruct (afterPrefix prefix p) as [rest|] eqn:E; [|discriminate].
  intros H. apply andb_true_iff in H. destruct H as [L D].
  apply Nat.eqb_eq in L. exists rest. split; [now apply afterPrefix_app | auto].
Qed.

(** The international form is left as it is. *)
Lemma normalizeUKMobile_international (d : string) :
  allDigits d = true ->
  normalizeUKMobile ("+447" ++ d) = ("+447" ++ d)%string.
Proof.
  intros H. unfold normalizeUKMobile. simpl isEmpty. cbv iota.
  change (removeChars isBracketOrHyphen (removeChars isWhiteSpace ("+447" ++ d)))
    with (strippedPhone ("+447" ++ d)).
  assert (S : strippedPhone ("+447" ++ d) = ("+447" ++ d)%string).
  { unfold strippedPhone. simpl.
    fold (strippedPhone d). now rewrite strippedPhone_digits. }
  rewrite S. reflexivity.
Qed.

(** X15. The three usual spellings of a UK mobile number, [07] and nine
    digits, [7] and nine digits, [00447] and nine digits, written with any
    white space, brackets and hyphens, all become [+447] and the nine
    digits. *)
Theorem normalizeUKMobile_canonical (input d : string) :
  isEmpty input = false ->
  allDigits d = true -> String.length d = 9 ->
  strippedPhone input = ("07" ++ d)%string \/
  strippedPhone input = ("7" ++ d)%string \/
  strippedPhone input = ("00447" ++ d)%string ->
  normalizeUKMobile input = ("+447" ++ d)%string.
Proof.
  intros NE Hd Ld H. unfold normalizeUKMobile. rewrite NE.
  change (removeChars isBracketOrHyphen (removeChars isWhiteSpace input))
    with (strippedPhone input).
  destruct H as [-> | [-> | ->]]; unfold prefixThenDigits; simpl;
    rewrite Ld, Hd; reflexivity.
Qed.

(** X16. [normalizeUKMobile] leaves its own results unchanged, and no
    result contains white space, a bracket or a hyphen. *)
Theorem normalizeUKMobile_idempotent (input : string) :
  normalizeUKMobile (normalizeUKMobile input) = normalizeUKMobile input /\
  strippedPhone (normalizeUKMobile input) = normalizeUKMobile input.
Proof.
  assert (Int : forall d, allDigits d = true ->
            normalizeUKMobile ("+447" ++ d) = ("+447" ++ d)%string /\
            strippedPhone ("+447" ++ d) = ("+447" ++ d)%string).
  { intros d Hd. split; [now apply normalizeUKMobile_international|].
    unfold strippedPhone. simpl. fold (strippedPhone d).
    now rewrite strippedPhone_digits. }
  destruct (isEmpty input) eqn:NE.
  { apply isEmpty_true in NE. subst. split; reflexivity. }
  assert (Cases :
            (exists d, allDigits d = true /\
                       normalizeUKMobile input = ("+447" ++ d)%string) \/
            (normalizeUKMobile input = strippedPhone input /\
             prefixThenDigits "07" 9 (strippedPhone input) = false /\
             prefixThenDigits "7" 9 (strippedPhone input) = false /\
             prefixThenDigits "00447" 9 (strippedPhone input) = false)).
  { unfold normalizeUKMobile. rewrite NE.
    change (removeChars isBracketOrHyphen (removeChars isWhiteSpace input))
      with (strippedPhone input).
    destruct (prefixThenDigits "07" 9 (strippedPhone input)) eqn:P1.
    { destruct (prefixThenDigits_shape _ _ _ P1) as [d [E [_ Hd]]].
      left. exists d. rewrite E. auto. }
    destruct (prefixThenDigits "7" 9 (strippedPhone input)) eqn:P2.
    { destruct (prefixThenDigits_shape _ _ _ P2) as [d [E [_ Hd]]].
      left. exists d. rewrite E. auto. }
    destruct (prefixThenDigits "00447" 9 (strippedPhone input)) eqn:P3.
    { destruct (prefixThenDigits_shape _ _ _ P3) as [d [E [_ Hd]]].
      left. exists d. rewrite E. auto. }
    right. auto. }
  destruct Cases as [[d [Hd E]]|[E [P1 [P2 P3]]]]; rewrite E.
  - now apply Int.
  - split; [|apply strippedPhone_idempotent].
    unfold normalizeUKMobile.
    change (removeChars isBracketOrHyphen (removeChars isWhiteSpace (strippedPhone input)))
      with (strippedPhone (strippedPhone input)).
    rewrite strippedPhone_idempotent, P1, P2, P3.
    destruct (isEmpty (strippedPhone input)); reflexivity.
Qed.

Lemma normalizeUKMobile_canonical_witness :
  normalizeUKMobile "(07123) 456-789" = "+447123456789".
Proof.
  apply (normalizeUKMobile_canonical "(07123) 456-789" "123456789");
    try reflexivity.
  left. reflexivity.
Defined.

(* ================================================================== *)
(** * Short references *)

Lemma padded_decimal_injective (len n m : nat) :
  padStart0 len (decimalOf n) = padStart0 len (decimalOf m) -> n = m.
Proof.
  intros H. rewrite <- (valueOfDigits_padStart0 len n), H.
  apply valueOfDigits_padStart0.
Qed.

Lemma nextShortRef_injective (c c' : option nat) :
  fst (nextShortRef c) = fst (nextShortRef c') ->
  snd (nextShortRef c) = snd (nextShortRef c').
Proof.
  unfold nextShortRef. simpl. intros H. injection H as H.
  now rewrite (padded_decimal_injective 3 _ _ H).
Qed.

(** X17. Two calls of [nextShortRef] give the same reference only when
    they left the counter at the same value; the reference of a call and
    the one of the call after it, as for a booking and its return booking,
    differ. *)
Theorem nextShortRef_distinct (c c' : option nat) :
  (fst (nextShortRef c) = fst (nextShortRef c') ->
   snd (nextShortRef c) = snd (nextShortRef c')) /\
  fst (nextShortRef (snd (nextShortRef c))) <> fst (nextShortRef c).
Proof.
  split; [apply nextShortRef_injective|].
  intros H. apply nextShortRef_injective in H.
  unfold nextShortRef in H. simpl in H. destruct c; injection H; lia.
Qed.

(* ================================================================== *)
(** * The whole handler *)

Lemma mapM_formatBucket_addresses (hav : jsval -> jsval -> jsval -> jsval -> number)
    (direction : jsval) (buckets : list Bucket.t) :
  forall formatted,
    mapM (formatBucket hav direction) buckets = Returned formatted ->
    Permutation (flat_map Bucket.addresses buckets)
                (flat_map RouteGroup.addresses formatted) /\
    map RouteGroup.count formatted = map Bucket.count buckets.
Proof.
  induction buckets as [|b r IH]; simpl; intros formatted E.
  - injection E as <-. split; [constructor | reflexivity].
  - unfold formatBucket at 1 in E.
    destruct (optimiseRoute_returns hav (Bucket.addresses b) direction) as [out [Eo P]].
    rewrite Eo in E. simpl in E.
    destruct (mapM (formatBucket hav direction) r) as [fs| |]; simpl in E; try discriminate.
    injection E as <-. destruct (IH fs eq_refl) as [PA C]. simpl. split.
    + now apply Permutation_app.
    + now rewrite C.
Qed.

Lemma totalCount_map (buckets : list Bucket.t) :
  totalCount buckets = fold_right N.add 0%N (map Bucket.count buckets).
Proof. induction buckets as [|b r IH]; simpl; [reflexivity | now rewrite IH]. Qed.

(** X18. When the handler does not throw (every group has its time,
    [localeCompare] never puts two strings each before the other), the
    response holds every address of the input groups, each as often as the
    input has it, and the counts of its route groups add up to the counts
    of the input groups. *)
Theorem shiftGroups_complete (hav : jsval -> jsval -> jsval -> jsval -> number)
    (localeCompare : string -> string -> comparison)
    (type : string) (groups : list Group.t) :
  (forall a b, localeCompare a b = Lt -> localeCompare b a <> Lt) ->
  (forall g, In g groups -> isMissing (Group.onOffDutyTime g) = false) ->
  exists out,
    shiftGroups hav localeCompare type groups = Returned out /\
    Permutation (flat_map Group.addresses groups) (flat_map RouteGroup.addresses out) /\
    fold_right N.add 0%N (map RouteGroup.count out) = sumCounts groups.
Proof.
  intros Hasym Ht.
  destruct (shiftGroups_ordered_aux hav localeCompare Hasym type groups Ht)
    as [buckets [formatted [out [Ea [Ef [Es [P _]]]]]]].
  exists out. split; [exact Es|].
  destruct (mapM_formatBucket_addresses hav _ buckets formatted Ef) as [PA C].
  rewrite aggregate_returns in Ea. injection Ea as <-.
  split.
  - rewrite <- (Permutation_flat_map RouteGroup.addresses P), <- PA.
    symmetry. exact (bucketFold_addresses groups []).
  - assert (Pc : Permutation (map RouteGroup.count formatted) (map RouteGroup.count out))
      by now apply Permutation_map.
    assert (Sum : forall l l' : list N, Permutation l l' ->
              fold_right N.add 0%N l = fold_right N.add 0%N l').
    { induction 1; simpl; lia. }
    rewrite <- (Sum _ _ Pc), C, <- totalCount_map, bucketFold_totalCount. simpl. lia.
Qed.

Lemma shiftGroups_complete_witness :
  exists out,
    shiftGroups taxicabDistance String.compare "start"
      [ groupOf (Text "2025-12-25") (Text "19:30") "Efford" [stopA; stopX];
        groupOf (Text "2025-12-24") (Text "07:00") "Mutley" [stopB; stopC] ]
    = Returned out /\
    Permutation [stopA; stopX; stopB; stopC] (flat_map RouteGroup.addresses out) /\
    fold_right N.add 0%N (map RouteGroup.count out) = 4%N.
Proof.
  apply (shiftGroups_complete taxicabDistance String.compare "start"
           [ groupOf (Text "2025-12-25") (Text "19:30") "Efford" [stopA; stopX];
             groupOf (Text "2025-12-24") (Text "07:00") "Mutley" [stopB; stopC] ]).
  - intros a b H H'. rewrite String.compare_antisym, H' in H. discriminate.
  - intros g Hg. simpl in Hg.
    repeat (destruct Hg as [<-|Hg]); try contradiction; reflexivity.
Defined.

(* ================================================================== *)
(** * Cluster labels are stable *)

(** X19. With the shipped cluster list, the label of a label is the label
    itself: [getZoneClusterName] applied to one of its results returns
    that result. *)
Theorem getZoneClusterName_idempotent (z : string) :
  getZoneClusterName (getZoneClusterName z) = getZoneClusterName z.
Proof.
  destruct (isEmpty (trim z)) eqn:E.
  { assert (R : getZoneClusterName z = "(unknown)")
      by (unfold getZoneClusterName, zoneClusterNameIn; now rewrite E).
    rewrite R. reflexivity. }
  destruct (firstCluster (toLowerCase (trim z)) ZONE_CLUSTERS) as [l|] eqn:F.
  - assert (R : getZoneClusterName z = l)
      by (unfold getZoneClusterName, zoneClusterNameIn; now rewrite E, F).
    rewrite R. unfold ZONE_CLUSTERS in F. cbn [firstCluster] in F.
    destruct (matchesAlias _ _) in F; [|discriminate F].
    injection F as <-. reflexivity.
  - assert (R : getZoneClusterName z = trim z)
      by (unfold getZoneClusterName, zoneClusterNameIn; now rewrite E, F).
    rewrite R. unfold getZoneClusterName, zoneClusterNameIn.
    now rewrite trim_idempotent, E, F.
Qed.
